(** * Food delivery dispatch: route graph, shortest paths and order book

    A shallow embedding of [food_delivery.cpp] (class [FoodDeliverySystem])
    and the properties of its route graph, Dijkstra search and order
    life cycle. *)

From Stdlib Require Import ZArith String List Lia.
From Stdlib.Floats Require Import SpecFloat.
From stdpp Require Import base option list gmap strings sorting.

Local Open Scope Z_scope.

(** ** Machine integers

    [int] is a 32-bit signed integer; arithmetic is written with its
    wrap-around. *)

Definition INT_MAX : Z := 2147483647.
Definition INT_MIN : Z := -2147483648.

Definition wrap (z : Z) : Z := (z + 2147483648) mod 4294967296 - 2147483648.

Definition int_add (a b : Z) : Z := wrap (a + b).

Definition in_int (z : Z) : Prop := INT_MIN <= z <= INT_MAX.

(** [double] values are only stored and copied by the program. *)
Definition double : Type := spec_float.

(** ** [std::map] operations *)

Section StdMap.
Context {K : Type} `{Countable K} {V : Type}.

(** [m.count(k)], also [m.find(k) != m.end()]. *)
Definition count (m : gmap K V) (k : K) : bool :=
  match m !! k with Some _ => true | None => false end.

(** [m[k]]: a missing key is inserted with the value-initialised
    default before its slot is returned. *)
Definition index (dflt : V) (m : gmap K V) (k : K) : gmap K V * V :=
  match m !! k with
  | Some v => (m, v)
  | None => (<[k := dflt]> m, dflt)
  end.
End StdMap.

(** Iteration over a map keyed by strings visits the keys in increasing
    order. *)
Definition key_le {V : Type} (a b : string * V) : Prop :=
  String.leb a.1 b.1 = true.

Global Instance key_le_dec {V : Type} (a b : string * V) : Decision (key_le a b).
Proof. unfold key_le. apply _. Defined.

Definition entries {V : Type} (m : gmap string V) : list (string * V) :=
  merge_sort key_le (map_to_list m).

(** ** Data model *)

Record Order : Type := mkOrder {
  id : Z;
  restaurant : string;
  destination : string;
  price : double
}.

Abbreviation Graph := (gmap string (gmap string Z)).

Record FoodDeliverySystem : Type := mkFoodDeliverySystem {
  incomingOrders : list Order;      (* queue, front first *)
  completedOrders : list Order;     (* stack, top first *)
  deliveryGraph : Graph;
  allOrders : gmap Z Order;
  nextOrderId : Z
}.

Definition fresh : FoodDeliverySystem :=
  {| incomingOrders := []; completedOrders := []; deliveryGraph := ∅;
     allOrders := ∅; nextOrderId := 1001 |}.

(** ** The priority queue of [findShortestPath]

    [priority_queue<pair<int,string>, ..., greater<...>>]: the top is a
    least pair, pairs compared by distance and then by name. *)

Definition entry : Type := Z * string.

Definition entry_ltb (a b : entry) : bool :=
  (a.1 <? b.1) || ((a.1 =? b.1) && String.ltb a.2 b.2).

Fixpoint least (best : entry) (q : list entry) : entry :=
  match q with
  | [] => best
  | x :: q' => least (if entry_ltb x best then x else best) q'
  end.

Definition pq_top (q : list entry) : option entry :=
  match q with
  | [] => None
  | x :: q' => Some (least x q')
  end.

Fixpoint pq_remove (e : entry) (q : list entry) : list entry :=
  match q with
  | [] => []
  | x :: q' => if decide (x = e) then q' else x :: pq_remove e q'
  end.

Definition pq_push (e : entry) (q : list entry) : list entry := e :: q.

(** ** Dijkstra search *)

Record Search : Type := mkSearch {
  graph : Graph;
  distances : gmap string Z;
  predecessors : gmap string string;
  visited : gset string;
  pq : list entry
}.

Definition set_distances (d : gmap string Z) (st : Search) : Search :=
  {| graph := graph st; distances := d; predecessors := predecessors st;
     visited := visited st; pq := pq st |}.

(** The relaxation step, one edge of [deliveryGraph[current]]. *)
Definition relax (current : string) (st : Search) (edge : string * Z) : Search :=
  let neighbor := edge.1 in
  let weight := edge.2 in
  let '(d1, dcur) := index 0 (distances st) current in
  if bool_decide (dcur ≠ INT_MAX) then
    let '(d2, dcur2) := index 0 d1 current in
    let '(d3, dn) := index 0 d2 neighbor in
    if int_add dcur2 weight <? dn then
      let '(d4, dcur3) := index 0 d3 current in
      let '(d5, _) := index 0 d4 neighbor in
      let d6 := <[neighbor := int_add dcur3 weight]> d5 in
      let '(p1, _) := index EmptyString (predecessors st) neighbor in
      let p2 := <[neighbor := current]> p1 in
      let '(d7, dn') := index 0 d6 neighbor in
      {| graph := graph st; distances := d7; predecessors := p2;
         visited := visited st; pq := pq_push (dn', neighbor) (pq st) |}
    else set_distances d3 st
  else set_distances d1 st.

(** The neighbours of [current] are explored when it is a location. *)
Definition explore (current : string) (st : Search) : Search :=
  if count (graph st) current then
    let '(g1, adj) := index ∅ (graph st) current in
    fold_left (relax current)
      (entries adj)
      {| graph := g1; distances := distances st;
         predecessors := predecessors st; visited := visited st; pq := pq st |}
  else st.

(** One iteration of [while (!pq.empty())]; the loop runs for at most
    [fuel] iterations. *)
Fixpoint search_loop (fuel : nat) (st : Search) : option Search :=
  match pq_top (pq st) with
  | None => Some st
  | Some top =>
    match fuel with
    | O => None
    | S fuel' =>
      let current := top.2 in
      let st1 := {| graph := graph st; distances := distances st;
                    predecessors := predecessors st; visited := visited st;
                    pq := pq_remove top (pq st) |} in
      if bool_decide (current ∈ visited st1) then search_loop fuel' st1
      else
        search_loop fuel'
          (explore current
             {| graph := graph st1; distances := distances st1;
                predecessors := predecessors st1;
                visited := {[current]} ∪ visited st1; pq := pq st1 |})
    end
  end.

(** [for (pair : deliveryGraph) distances[pair.first] = INT_MAX]. *)
Definition init_distances (g : Graph) : gmap string Z :=
  fold_left (fun d kv => <[kv.1 := INT_MAX]> (index 0 d kv.1).1) (entries g) ∅.

(** The walk back along the predecessors, [path.push_back] at the end of
    the list; [None] when [fuel] iterations were not enough. *)
Fixpoint walk_back (fuel : nat) (preds : gmap string string)
    (start current : string) (path : list string) : option (list string) :=
  if count preds current then
    match fuel with
    | O => None
    | S fuel' =>
      let path1 := path ++ [current] in
      let '(preds1, current1) := index EmptyString preds current in
      if bool_decide (current1 = start) then Some (path1 ++ [start])
      else walk_back fuel' preds1 start current1 path1
    end
  else Some path.

(** The state of the search when its main loop has ended. *)
Definition run_search (fuel : nat) (g : Graph) (start : string) : option Search :=
  let '(d1, _) := index 0 (init_distances g) start in
  search_loop fuel
    {| graph := g; distances := <[start := 0]> d1; predecessors := ∅;
       visited := ∅; pq := pq_push (0, start) [] |}.

Definition findShortestPath (fuel : nat) (g : Graph) (start end_ : string)
    : option (Graph * list string) :=
  if negb (count (init_distances g) start) then Some (g, [])
  else
    match run_search fuel g start with
    | None => None
    | Some st =>
      if negb (count (distances st) end_)
         || bool_decide ((index 0 (distances st) end_).2 = INT_MAX)
      then Some (graph st, [])
      else
        match walk_back fuel (predecessors st) start end_ [] with
        | None => None
        | Some path =>
          let path' := rev path in
          match path' with
          | front :: _ =>
            if bool_decide (front = start) then Some (graph st, path')
            else Some (graph st, [])
          | [] => Some (graph st, [])
          end
        end
    end.

(** [calculatePathDistance]: the loop over consecutive pairs, entered
    when the path has at least two elements. *)
Fixpoint sum_edges (g : Graph) (path : list string) (totalDistance : Z)
    : Graph * Z :=
  match path with
  | start :: ((end_ :: _) as rest) =>
    if count g start then
      let '(g1, adj) := index ∅ g start in
      if count adj end_ then
        let '(g2, adj2) := index ∅ g1 start in
        let '(adj3, w) := index 0 adj2 end_ in
        sum_edges (<[start := adj3]> g2) rest (int_add totalDistance w)
      else (g1, INT_MAX)
    else (g, INT_MAX)
  | _ => (g, totalDistance)
  end.

Definition calculatePathDistance (g : Graph) (path : list string) : Graph * Z :=
  if (length path <? 2)%nat then (g, 0) else sum_edges g path 0.

(** ** The operations of [FoodDeliverySystem]

    What an operation prints is returned as a [Message]. *)

Inductive Message : Type :=
| LocationAdded (name : string)
| LocationExists (name : string)
| RouteAdded (start end_ : string) (distance : Z)
| RouteLocationMissing
| OrderPlaced (o : Order)
| OrderLocationMissing
| NoPendingOrders
| OrderDelivered (orderId : Z)
| NoDeliveries
| LastDelivery (o : Order)
| QueueEmpty
| PendingOrders (l : list Order)
| OrderNotFound (orderId : Z)
| DepotMissing
| RouteReport (distance1 : option Z) (path1 : list string)
              (distance2 : option Z) (path2 : list string)
              (total : option Z)
| NoDeliveriesToRevert
| Reverted (orderId : Z)
| Status (pending completed : nat) (next : Z) (locations : list string).

Definition set_graph (g : Graph) (s : FoodDeliverySystem)
    : FoodDeliverySystem :=
  {| incomingOrders := incomingOrders s; completedOrders := completedOrders s;
     deliveryGraph := g; allOrders := allOrders s;
     nextOrderId := nextOrderId s |}.

Definition addLocation (s : FoodDeliverySystem) (name : string)
    : FoodDeliverySystem * Message :=
  if negb (count (deliveryGraph s) name) then
    let '(g1, _) := index ∅ (deliveryGraph s) name in
    (set_graph (<[name := ∅]> g1) s, LocationAdded name)
  else (s, LocationExists name).

(** [deliveryGraph[a][b] = distance]. *)
Definition set_edge (g : Graph) (a b : string) (distance : Z) : Graph :=
  let '(g1, adj) := index ∅ g a in
  let '(adj1, _) := index 0 adj b in
  <[a := <[b := distance]> adj1]> g1.

Definition addRoute (s : FoodDeliverySystem) (start end_ : string)
    (distance : Z) : FoodDeliverySystem * Message :=
  if count (deliveryGraph s) start && count (deliveryGraph s) end_ then
    let g1 := set_edge (deliveryGraph s) start end_ distance in
    let g2 := set_edge g1 end_ start distance in
    (set_graph g2 s, RouteAdded start end_ distance)
  else (s, RouteLocationMissing).

Definition placeOrder (s : FoodDeliverySystem)
    (restaurant destination : string) (price : double)
    : FoodDeliverySystem * Message :=
  if count (deliveryGraph s) restaurant && count (deliveryGraph s) destination
  then
    let newOrder := mkOrder (nextOrderId s) restaurant destination price in
    let '(all1, _) := index (mkOrder 0 EmptyString EmptyString (S754_zero false))
                        (allOrders s) (id newOrder) in
    ({| incomingOrders := incomingOrders s ++ [newOrder];
        completedOrders := completedOrders s;
        deliveryGraph := deliveryGraph s;
        allOrders := <[id newOrder := newOrder]> all1;
        nextOrderId := int_add (nextOrderId s) 1 |},
     OrderPlaced newOrder)
  else (s, OrderLocationMissing).

Definition processNextOrder (s : FoodDeliverySystem)
    : FoodDeliverySystem * Message :=
  match incomingOrders s with
  | [] => (s, NoPendingOrders)
  | orderToProcess :: rest =>
    ({| incomingOrders := rest;
        completedOrders := orderToProcess :: completedOrders s;
        deliveryGraph := deliveryGraph s; allOrders := allOrders s;
        nextOrderId := nextOrderId s |},
     OrderDelivered (id orderToProcess))
  end.

Definition trackLastDelivery (s : FoodDeliverySystem)
    : FoodDeliverySystem * Message :=
  match completedOrders s with
  | [] => (s, NoDeliveries)
  | lastOrder :: _ => (s, LastDelivery lastOrder)
  end.

(** The pending orders are printed from a copy of the queue. *)
Definition listPendingOrders (s : FoodDeliverySystem)
    : FoodDeliverySystem * Message :=
  match incomingOrders s with
  | [] => (s, QueueEmpty)
  | tempQueue => (s, PendingOrders tempQueue)
  end.

Definition revertLastDelivery (s : FoodDeliverySystem)
    : FoodDeliverySystem * Message :=
  match completedOrders s with
  | [] => (s, NoDeliveriesToRevert)
  | revertedOrder :: rest =>
    ({| incomingOrders := incomingOrders s ++ [revertedOrder];
        completedOrders := rest;
        deliveryGraph := deliveryGraph s; allOrders := allOrders s;
        nextOrderId := nextOrderId s |},
     Reverted (id revertedOrder))
  end.

Definition systemStatus (s : FoodDeliverySystem)
    : FoodDeliverySystem * Message :=
  (s, Status (length (incomingOrders s)) (length (completedOrders s))
        (nextOrderId s) (map fst (entries (deliveryGraph s)))).

(** A leg distance is printed unless it is [INT_MAX]; the path is printed
    when the distance is and the path is not empty. *)
Definition shown_distance (distance : Z) : option Z :=
  if bool_decide (distance ≠ INT_MAX) then Some distance else None.

Definition shown_path (distance : Z) (path : list string) : list string :=
  if bool_decide (distance ≠ INT_MAX) then path else [].

Definition total_distance (distance1 distance2 : Z) : Z :=
  if bool_decide (distance1 = INT_MAX) || bool_decide (distance2 = INT_MAX)
  then -1 else int_add distance1 distance2.

Definition shown_total (totalDistance : Z) : option Z :=
  if bool_decide (totalDistance ≠ -1) then Some totalDistance else None.

Definition optimizeDeliveryRoute (fuel : nat) (s : FoodDeliverySystem)
    (orderId : Z) : option (FoodDeliverySystem * Message) :=
  if negb (count (allOrders s) orderId) then Some (s, OrderNotFound orderId)
  else
    let '(all1, order) :=
      index (mkOrder 0 EmptyString EmptyString (S754_zero false))
        (allOrders s) orderId in
    let s1 := {| incomingOrders := incomingOrders s;
                 completedOrders := completedOrders s;
                 deliveryGraph := deliveryGraph s; allOrders := all1;
                 nextOrderId := nextOrderId s |} in
    let depot := "Depot"%string in
    if negb (count (deliveryGraph s1) depot) then Some (s1, DepotMissing)
    else
      match findShortestPath fuel (deliveryGraph s1) depot (restaurant order) with
      | None => None
      | Some (g1, path1) =>
        let '(g2, distance1) := calculatePathDistance g1 path1 in
        match findShortestPath fuel g2 (restaurant order) (destination order) with
        | None => None
        | Some (g3, path2) =>
          let '(g4, distance2) := calculatePathDistance g3 path2 in
          Some (set_graph g4 s1,
                RouteReport (shown_distance distance1)
                  (shown_path distance1 path1)
                  (shown_distance distance2)
                  (shown_path distance2 path2)
                  (shown_total (total_distance distance1 distance2)))
        end
      end.

(** ** The menu loop of [main] *)

Inductive Command : Type :=
| AddLocation (name : string)
| AddRoute (start end_ : string) (distance : Z)
| PlaceOrder (restaurant destination : string) (price : double)
| ProcessNext
| TrackLast
| ListPending
| OptimizeRoute (orderId : Z)
| RevertLast
| ShowStatus.

Definition exec (fuel : nat) (s : FoodDeliverySystem) (c : Command)
    : option (FoodDeliverySystem * Message) :=
  match c with
  | AddLocation name => Some (addLocation s name)
  | AddRoute start end_ distance => Some (addRoute s start end_ distance)
  | PlaceOrder r d p => Some (placeOrder s r d p)
  | ProcessNext => Some (processNextOrder s)
  | TrackLast => Some (trackLastDelivery s)
  | ListPending => Some (listPendingOrders s)
  | OptimizeRoute orderId => optimizeDeliveryRoute fuel s orderId
  | RevertLast => Some (revertLastDelivery s)
  | ShowStatus => Some (systemStatus s)
  end.

(** A session: the commands in order, with what each printed. *)
Fixpoint run (fuel : nat) (s : FoodDeliverySystem) (cs : list Command)
    : option (FoodDeliverySystem * list Message) :=
  match cs with
  | [] => Some (s, [])
  | c :: cs' =>
    match exec fuel s c with
    | None => None
    | Some (s1, m) =>
      match run fuel s1 cs' with
      | None => None
      | Some (s2, ms) => Some (s2, m :: ms)
      end
    end
  end.

(** The states the program can be in. *)
Inductive reachable : FoodDeliverySystem -> Prop :=
| reachable_fresh : reachable fresh
| reachable_exec fuel s c s' m :
    reachable s -> exec fuel s c = Some (s', m) -> reachable s'.

(** ** Vocabulary of the properties *)

(** The weight stored for the route from [a] to [b], if any. *)
Definition edge_weight (g : Graph) (a b : string) : option Z :=
  match g !! a with
  | Some adj => adj !! b
  | None => None
  end.

(** Every neighbour is itself a location. *)
Definition closed (g : Graph) : Prop :=
  map_Forall (fun _ adj => map_Forall (fun b (_ : Z) => is_Some (g !! b)) adj) g.

(** Every route is stored in both directions with one weight. *)
Definition undirected (g : Graph) : Prop :=
  map_Forall
    (fun a adj => map_Forall (fun b w => edge_weight g b a = Some w) adj) g.

(** Every weight lies between [0] and [W]. *)
Definition weights_within (W : Z) (g : Graph) : Prop :=
  map_Forall (fun _ adj => map_Forall (fun _ w => 0 <= w <= W) adj) g.

(** No sum of weights along a path without repeated locations reaches
    [INT_MAX]. *)
Definition no_overflow (W : Z) (g : Graph) : Prop :=
  weights_within W g /\ 0 <= W /\ W * Z.of_nat (size g) < INT_MAX.

(** The total weight of a sequence of locations, when each consecutive
    pair is a route. *)
Fixpoint path_weight (g : Graph) (path : list string) : option Z :=
  match path with
  | a :: ((b :: _) as rest) =>
    match edge_weight g a b, path_weight g rest with
    | Some w, Some t => Some (w + t)
    | _, _ => None
    end
  | _ => Some 0
  end.

(** [path] leads from [a] to [b] along routes and has total weight [t]. *)
Definition route_from_to (g : Graph) (a b : string) (path : list string)
    (t : Z) : Prop :=
  head path = Some a /\ last path = Some b /\ path_weight g path = Some t.

(** The distance the search has recorded for [end_] when it ends. *)
Definition search_distance (fuel : nat) (g : Graph) (start end_ : string)
    : option Z :=
  match run_search fuel g start with
  | Some st => distances st !! end_
  | None => None
  end.

(** The distance of the path the program reports, as
    [optimizeDeliveryRoute] computes it. *)
Definition reported_distance (fuel : nat) (g : Graph) (start end_ : string)
    : option Z :=
  match findShortestPath fuel g start end_ with
  | Some (g1, path) => Some (calculatePathDistance g1 path).2
  | None => None
  end.

(** The ids given out by a session. *)
Definition placed_id (m : Message) : option Z :=
  match m with
  | OrderPlaced o => Some (id o)
  | _ => None
  end.

Definition placed_ids (ms : list Message) : list Z := omap placed_id ms.

(** The distances a session asks [addRoute] to record. *)
Definition route_distance (c : Command) : option Z :=
  match c with
  | AddRoute _ _ distance => Some distance
  | _ => None
  end.

Definition stored_weights (g : Graph) (P : Z -> Prop) : Prop :=
  forall a b w, edge_weight g a b = Some w -> P w.

(** The state after a session of commands that needs no shortest path. *)
Definition state_after (cs : list Command) : FoodDeliverySystem :=
  match run O fresh cs with
  | Some (s, _) => s
  | None => fresh
  end.

(** The ids of [n] placements from the counter [next]. *)
Fixpoint wrapped_ids (next : Z) (n : nat) : list Z :=
  match n with
  | O => []
  | S n' => next :: wrapped_ids (int_add next 1) n'
  end.

(** Sessions used as examples. *)
Definition depot_a_b : list Command :=
  [AddLocation "Depot"; AddLocation "A"; AddLocation "B";
   AddRoute "Depot" "A" 5; AddRoute "A" "B" 3].

Definition depot_a_apart_b : list Command :=
  [AddLocation "Depot"; AddLocation "A"; AddLocation "B";
   AddRoute "Depot" "A" 5; PlaceOrder "A" "B" (S754_zero false)].

Definition negative_loop : list Command :=
  [AddLocation "Depot"; AddLocation "B"; AddLocation "C";
   AddRoute "B" "B" (-1); AddRoute "B" "C" (-1)].

Definition negative_star : list Command :=
  [AddLocation "Depot"; AddLocation "A"; AddLocation "B"; AddLocation "C";
   AddRoute "A" "C" (-1); AddRoute "B" "C" (-1)].

(** [n] orders placed one after the other. *)
Definition place_many (n : nat) (restaurant destination : string)
    (price : double) : list Command :=
  repeat (PlaceOrder restaurant destination price) n.

(** The test of the relaxation step. *)
Definition relaxes (dc w dn : Z) : bool :=
  bool_decide (dc <> INT_MAX) && (int_add dc w <? dn).

(** ** Invariants of the search

    [order] lists the visited locations, the latest first; [m] is the
    distance of the latest one. *)

Definition relaxed (g : Graph) (st : Search) (u : string) : Prop :=
  forall v w du,
    edge_weight g u v = Some w -> distances st !! u = Some du ->
    exists dv, distances st !! v = Some dv /\ dv <= du + w.

Record search_inv (g : Graph) (start : string) (W : Z)
    (order : list string) (m : Z) (st : Search) : Prop := {
  inv_graph : graph st = g;
  inv_dom : forall v, is_Some (distances st !! v) <-> is_Some (g !! v);
  inv_nodup : NoDup order;
  inv_order : forall v, v ∈ order <-> v ∈ visited st;
  inv_bound : forall v d, distances st !! v = Some d ->
    d = INT_MAX \/ 0 <= d <= W * Z.of_nat (length order);
  inv_visited : forall v, v ∈ visited st ->
    exists d, distances st !! v = Some d /\
      0 <= d <= W * (Z.of_nat (length order) - 1) /\ d <= m;
  inv_start : distances st !! start = Some 0;
  inv_start_pred : predecessors st !! start = None;
  inv_pred : forall v u, predecessors st !! v = Some u ->
    u ∈ visited st /\
    exists du w, distances st !! u = Some du /\
      edge_weight g u v = Some w /\ distances st !! v = Some (du + w);
  inv_pred_order : forall v u l1 l2, predecessors st !! v = Some u ->
    order = l1 ++ v :: l2 -> u ∈ l2;
  inv_has_pred : forall v d, v <> start -> distances st !! v = Some d ->
    d <> INT_MAX -> is_Some (predecessors st !! v);
  inv_pq : forall k x, (k, x) ∈ pq st ->
    m <= k /\ k <= W * Z.of_nat (length order) /\
    exists d, distances st !! x = Some d /\ d <= k /\
      (x ∉ visited st -> (d, x) ∈ pq st);
  inv_frontier : forall v d, distances st !! v = Some d -> d <> INT_MAX ->
    v ∈ visited st \/ (d, v) ∈ pq st
}.

Arguments inv_graph {g start W order m st} _.
Arguments inv_dom {g start W order m st} _ v.
Arguments inv_nodup {g start W order m st} _.
Arguments inv_order {g start W order m st} _ v.
Arguments inv_bound {g start W order m st} _ v d _.
Arguments inv_visited {g start W order m st} _ v _.
Arguments inv_start {g start W order m st} _.
Arguments inv_start_pred {g start W order m st} _.
Arguments inv_pred {g start W order m st} _ v u _.
Arguments inv_pred_order {g start W order m st} _ v u l1 l2 _ _.
Arguments inv_has_pred {g start W order m st} _ v d _ _ _.
Arguments inv_pq {g start W order m st} _ k x _.
Arguments inv_frontier {g start W order m st} _ v d _ _.

(** Every visited location has relaxed all its routes. *)
Definition settled (g : Graph) (st : Search) : Prop :=
  forall u, u ∈ visited st -> relaxed g st u.

(** From [st] to [st'] no distance grew and the visited locations kept
    theirs. *)
Definition descends (st st' : Search) : Prop :=
  visited st' = visited st /\
  (forall v d, distances st !! v = Some d ->
     exists d', distances st' !! v = Some d' /\ d' <= d) /\
  (forall v, v ∈ visited st -> distances st' !! v = distances st !! v).

(** The work left for the main loop: the queue, and for every location
    not yet visited its routes and itself. *)
Definition unvisited_cost (g : Graph) (vis : gset string) : nat :=
  sum_list_with
    (fun kv : string * gmap string Z =>
       if decide (kv.1 ∈ vis) then O else S (size kv.2))
    (map_to_list g).

Definition search_measure (st : Search) : nat :=
  (length (pq st) + unvisited_cost (graph st) (visited st))%nat.

(** Enough iterations for any search over [g]. *)
Definition enough_fuel (g : Graph) : nat :=
  S (S (unvisited_cost g ∅ + size g)).

(** ** Vocabulary of the order book *)

(** The orders created by a session, and the ids it delivered. *)
Definition placed_order (m : Message) : option Order :=
  match m with
  | OrderPlaced o => Some o
  | _ => None
  end.

Definition placed_orders (ms : list Message) : list Order :=
  omap placed_order ms.

Definition delivered_id (m : Message) : option Z :=
  match m with
  | OrderDelivered orderId => Some orderId
  | _ => None
  end.

Definition delivered_ids (ms : list Message) : list Z := omap delivered_id ms.

(** Both ends of an order are locations of the graph. *)
Definition known_order (g : Graph) (o : Order) : Prop :=
  is_Some (g !! restaurant o) /\ is_Some (g !! destination o).

Definition is_revert (c : Command) : bool :=
  match c with
  | RevertLast => true
  | _ => false
  end.

(** A session with two orders, one delivered and reverted. *)
Definition two_orders : list Command :=
  depot_a_b ++
  [PlaceOrder "A" "B" (S754_zero false); PlaceOrder "B" "Depot" (S754_zero false);
   ProcessNext; OptimizeRoute 1001; RevertLast; ProcessNext].

(** The same two orders, delivered in turn with nothing reverted. *)
Definition two_deliveries : list Command :=
  depot_a_b ++
  [PlaceOrder "A" "B" (S754_zero false); PlaceOrder "B" "Depot" (S754_zero false);
   ProcessNext; TrackLast; ProcessNext; ShowStatus].

(** [l] is a walk along the predecessors that begins at [current]: each
    element is the recorded predecessor of the one before it. *)
Fixpoint linked (preds : gmap string string) (current : string)
    (l : list string) : Prop :=
  match l with
  | [] => True
  | x :: l' =>
    x = current /\
    (l' = [] \/ exists y, preds !! current = Some y /\ linked preds y l')
  end.

(** Every recorded predecessor has a route to its successor. *)
Definition pred_edges (st : Search) : Prop :=
  forall v u, predecessors st !! v = Some u ->
              is_Some (edge_weight (graph st) u v).

(** What [optimizeDeliveryRoute] shows for the leg from [a] to [b]: no
    path and distance 0 when [b] is [a] or no route leads to it, and
    otherwise a route of least total weight with that weight. *)
Definition leg_report (g : Graph) (a b : string) (distance : Z)
    (path : list string) : Prop :=
  (path = [] /\ distance = 0 /\
   (a = b \/ forall p t, ~ route_from_to g a b p t)) \/
  (a <> b /\ route_from_to g a b path distance /\
   forall p t, route_from_to g a b p t -> distance <= t).

Definition one_order : list Command :=
  depot_a_b ++ [PlaceOrder "A" "B" (S754_zero false)].

(** * Properties *)

(** ** [std::map] access *)

Section StdMapFacts.
Context {K : Type} `{Countable K} {V : Type}.
Implicit Types (m : gmap K V) (k : K) (v dflt : V).

Lemma count_true m k : count m k = true <-> is_Some (m !! k).
Proof.
  unfold count. destruct (m !! k) as [v|]; split; intros Hc; done.
Qed.

Lemma count_false m k : count m k = false <-> m !! k = None.
Proof. unfold count. by destruct (m !! k). Qed.

Lemma index_present dflt m k v : m !! k = Some v -> index dflt m k = (m, v).
Proof. intros Hk. unfold index. by rewrite Hk. Qed.

Lemma index_absent dflt m k :
  m !! k = None -> index dflt m k = (<[k := dflt]> m, dflt).
Proof. intros Hk. unfold index. by rewrite Hk. Qed.

Lemma index_counted dflt m k :
  count m k = true -> (index dflt m k).1 = m.
Proof.
  intros [v Hv]%count_true. by rewrite (index_present _ _ _ _ Hv).
Qed.
End StdMapFacts.

Lemma entries_perm {V : Type} (m : gmap string V) : entries m ≡ₚ map_to_list m.
Proof. apply merge_sort_Permutation. Qed.

Lemma elem_of_entries {V : Type} (m : gmap string V) k v :
  (k, v) ∈ entries m <-> m !! k = Some v.
Proof. rewrite entries_perm. apply elem_of_map_to_list. Qed.

Lemma length_entries {V : Type} (m : gmap string V) :
  length (entries m) = size m.
Proof. rewrite entries_perm. apply length_map_to_list. Qed.

(** ** The search and the distance sum leave the graph alone *)

Lemma relax_graph current st edge : graph (relax current st edge) = graph st.
Proof.
  unfold relax.
  repeat (match goal with
          | |- context [index ?d ?m ?k] => destruct (index d m k)
          end; simpl).
  repeat case_match; done.
Qed.

Lemma fold_relax_graph current l st :
  graph (fold_left (relax current) l st) = graph st.
Proof.
  revert st. induction l as [|e l IH]; intros st; simpl; [done|].
  by rewrite IH, relax_graph.
Qed.

Lemma explore_graph current st : graph (explore current st) = graph st.
Proof.
  unfold explore. destruct (count (graph st) current) eqn:Hc; [|done].
  pose proof (index_counted ∅ _ _ Hc) as Hi.
  destruct (index ∅ (graph st) current) as [g1 adj]; simpl in Hi.
  by rewrite fold_relax_graph.
Qed.

Lemma search_loop_graph fuel st st' :
  search_loop fuel st = Some st' -> graph st' = graph st.
Proof.
  revert st. induction fuel as [|fuel IH]; intros st; simpl.
  - destruct (pq_top (pq st)); [done|]. by intros [= <-].
  - destruct (pq_top (pq st)) as [top|]; [|by intros [= <-]].
    case_bool_decide.
    + intros Hs. by rewrite (IH _ Hs).
    + intros Hs. by rewrite (IH _ Hs), explore_graph.
Qed.

Lemma run_search_graph fuel g start st :
  run_search fuel g start = Some st -> graph st = g.
Proof.
  unfold run_search. destruct (index 0 (init_distances g) start).
  intros Hs. by rewrite (search_loop_graph _ _ _ Hs).
Qed.

Lemma findShortestPath_graph fuel g start end_ g' path :
  findShortestPath fuel g start end_ = Some (g', path) -> g' = g.
Proof.
  unfold findShortestPath.
  destruct (negb (count (init_distances g) start)); [by intros [= <- _]|].
  destruct (run_search fuel g start) as [st|] eqn:Hs; [|done].
  apply run_search_graph in Hs.
  repeat case_match; intros [= <- _]; done.
Qed.

Lemma sum_edges_step g a b rest total :
  sum_edges g (a :: b :: rest) total =
  if count g a then
    let '(g1, adj) := index ∅ g a in
    if count adj b then
      let '(g2, adj2) := index ∅ g1 a in
      let '(adj3, w) := index 0 adj2 b in
      sum_edges (<[a := adj3]> g2) (b :: rest) (int_add total w)
    else (g1, INT_MAX)
  else (g, INT_MAX).
Proof. done. Qed.

Lemma sum_edges_graph g path total : (sum_edges g path total).1 = g.
Proof.
  revert g total. induction path as [|a path IH]; intros g total; [done|].
  destruct path as [|b rest]; [done|].
  rewrite sum_edges_step.
  destruct (count g a) eqn:Ha; [|done].
  apply count_true in Ha as [adj Hadj].
  rewrite !(index_present _ _ _ _ Hadj).
  destruct (count adj b) eqn:Hb; [|done].
  apply count_true in Hb as [w Hw].
  rewrite (index_present _ _ _ _ Hw).
  rewrite IH. by apply insert_id.
Qed.

Lemma calculatePathDistance_graph g path : (calculatePathDistance g path).1 = g.
Proof.
  unfold calculatePathDistance. case_match; [done|]. apply sum_edges_graph.
Qed.

Lemma set_graph_id s : set_graph (deliveryGraph s) s = s.
Proof. by destruct s. Qed.

Lemma optimizeDeliveryRoute_state fuel s orderId s' m :
  optimizeDeliveryRoute fuel s orderId = Some (s', m) -> s' = s.
Proof.
  unfold optimizeDeliveryRoute.
  destruct (count (allOrders s) orderId) eqn:Hc; simpl; [|by intros [= <- _]].
  apply count_true in Hc as [order Ho].
  rewrite (index_present _ _ _ _ Ho).
  assert ({| incomingOrders := incomingOrders s;
             completedOrders := completedOrders s;
             deliveryGraph := deliveryGraph s; allOrders := allOrders s;
             nextOrderId := nextOrderId s |} = s) as -> by (by destruct s).
  destruct (count (deliveryGraph s) "Depot"); simpl; [|by intros [= <- _]].
  destruct (findShortestPath fuel (deliveryGraph s) "Depot" (restaurant order))
    as [[g1 path1]|] eqn:H1; [|done].
  apply findShortestPath_graph in H1 as ->.
  pose proof (calculatePathDistance_graph (deliveryGraph s) path1) as Hg2.
  destruct (calculatePathDistance (deliveryGraph s) path1) as [g2 distance1].
  simpl in Hg2. subst g2.
  destruct (findShortestPath fuel (deliveryGraph s) (restaurant order)
              (destination order)) as [[g3 path2]|] eqn:H2; [|done].
  apply findShortestPath_graph in H2 as ->.
  pose proof (calculatePathDistance_graph (deliveryGraph s) path2) as Hg4.
  destruct (calculatePathDistance (deliveryGraph s) path2) as [g4 distance2].
  simpl in Hg4. subst g4.
  intros [= <- _]. apply set_graph_id.
Qed.

(** ** Routes and locations *)

Lemma set_edge_present g a b distance adj :
  g !! a = Some adj ->
  set_edge g a b distance = <[a := <[b := distance]> adj]> g.
Proof.
  intros Ha. unfold set_edge. rewrite (index_present _ _ _ _ Ha).
  unfold index. destruct (adj !! b); [done|].
  by rewrite insert_insert_eq.
Qed.

Lemma edge_weight_set_edge g a b distance x y :
  is_Some (g !! a) ->
  edge_weight (set_edge g a b distance) x y =
  if decide (x = a /\ y = b) then Some distance else edge_weight g x y.
Proof.
  intros [adj Ha]. rewrite (set_edge_present _ _ _ _ _ Ha).
  unfold edge_weight. destruct (decide (x = a)) as [->|Hx].
  - rewrite lookup_insert_eq, Ha. destruct (decide (y = b)) as [->|Hy].
    + rewrite lookup_insert_eq. destruct (decide _); intuition congruence.
    + rewrite lookup_insert_ne by done. destruct (decide _); intuition congruence.
  - rewrite lookup_insert_ne by done. destruct (decide _); intuition congruence.
Qed.

Lemma set_edge_lookup_is_Some g a b distance x :
  is_Some (g !! a) -> is_Some (set_edge g a b distance !! x) <-> is_Some (g !! x).
Proof.
  intros [adj Ha]. rewrite (set_edge_present _ _ _ _ _ Ha).
  rewrite lookup_insert_is_Some. split.
  - intros [<-|[_ ?]]; [by exists adj|done].
  - intros Hx. destruct (decide (a = x)); [by left|by right].
Qed.

Lemma addLocation_edge_weight s name a b :
  edge_weight (deliveryGraph (addLocation s name).1) a b =
  edge_weight (deliveryGraph s) a b.
Proof.
  unfold addLocation. destruct (count (deliveryGraph s) name) eqn:Hc; [done|].
  apply count_false in Hc. rewrite (index_absent _ _ _ Hc). simpl.
  rewrite insert_insert_eq. unfold edge_weight.
  destruct (decide (a = name)) as [->|Hne].
  - by rewrite lookup_insert_eq, Hc.
  - by rewrite lookup_insert_ne.
Qed.

Lemma addRoute_edge_weight s start end_ distance a b :
  edge_weight (deliveryGraph (addRoute s start end_ distance).1) a b =
  if count (deliveryGraph s) start && count (deliveryGraph s) end_ then
    if decide ((a = start /\ b = end_) \/ (a = end_ /\ b = start))
    then Some distance else edge_weight (deliveryGraph s) a b
  else edge_weight (deliveryGraph s) a b.
Proof.
  unfold addRoute.
  destruct (count (deliveryGraph s) start) eqn:Hs; [|done].
  destruct (count (deliveryGraph s) end_) eqn:He; [|done].
  apply count_true in Hs, He. simpl.
  rewrite edge_weight_set_edge by (by apply set_edge_lookup_is_Some).
  rewrite edge_weight_set_edge by done.
  repeat destruct (decide _); intuition congruence.
Qed.

(** The state and the message of a command that returned. *)
Ltac exec_pair :=
  let Heq := fresh "Heq" in
  intros [= Heq];
  match type of Heq with
  | ?t = (?s', ?m) =>
    assert (s' = t.1) as -> by (by rewrite Heq);
    assert (m = t.2) as -> by (by rewrite Heq);
    clear Heq
  end.

(** Only [addLocation] and [addRoute] change the graph. *)
Lemma exec_edge_weight fuel s c s' m a b :
  exec fuel s c = Some (s', m) ->
  edge_weight (deliveryGraph s') a b =
  match c with
  | AddRoute start end_ distance =>
    if count (deliveryGraph s) start && count (deliveryGraph s) end_ then
      if decide ((a = start /\ b = end_) \/ (a = end_ /\ b = start))
      then Some distance else edge_weight (deliveryGraph s) a b
    else edge_weight (deliveryGraph s) a b
  | _ => edge_weight (deliveryGraph s) a b
  end.
Proof.
  destruct c; cbn [exec]; try exec_pair.
  - apply addLocation_edge_weight.
  - apply addRoute_edge_weight.
  - unfold placeOrder. destruct (_ && _); [|done].
    by destruct (index _ (allOrders s) _).
  - unfold processNextOrder. by destruct (incomingOrders s).
  - unfold trackLastDelivery. by destruct (completedOrders s).
  - unfold listPendingOrders. by destruct (incomingOrders s).
  - intros Ho. by rewrite (optimizeDeliveryRoute_state _ _ _ _ _ Ho).
  - unfold revertLastDelivery. by destruct (completedOrders s).
  - by intros [= <- _].
Qed.

Lemma run_reachable fuel cs s s' ms :
  reachable s -> run fuel s cs = Some (s', ms) -> reachable s'.
Proof.
  revert s s' ms. induction cs as [|c cs IH]; intros s s' ms Hr; simpl.
  - by intros [= <- _].
  - destruct (exec fuel s c) as [[s1 m]|] eqn:He; [|done].
    destruct (run fuel s1 cs) as [[s2 ms']|] eqn:Hrun; [|done].
    intros [= <- _]. eapply IH; [|done]. by eapply reachable_exec.
Qed.

Lemma state_after_reachable cs : reachable (state_after cs).
Proof.
  unfold state_after. destruct (run O fresh cs) as [[s ms]|] eqn:Hrun.
  - eapply run_reachable; [apply reachable_fresh|done].
  - apply reachable_fresh.
Qed.

Lemma is_Some_true {A : Type} (o : option A) :
  match o with Some _ => true | None => false end = true -> is_Some o.
Proof. destruct o; [by eexists|done]. Qed.

Lemma graph_symmetric_step fuel s c s' m :
  (forall a b, edge_weight (deliveryGraph s) a b = edge_weight (deliveryGraph s) b a) ->
  exec fuel s c = Some (s', m) ->
  forall a b, edge_weight (deliveryGraph s') a b = edge_weight (deliveryGraph s') b a.
Proof.
  intros Hsym He a b.
  rewrite !(exec_edge_weight _ _ _ _ _ _ _ He).
  destruct c; try apply Hsym.
  destruct (_ && _); [|apply Hsym].
  repeat destruct (decide _); try done; try apply Hsym; intuition congruence.
Qed.

(** C3: in every reachable state the route graph is undirected and
    simple: [b] is in the adjacency of [a] with weight [w] exactly when
    [a] is in the adjacency of [b] with weight [w], and the two
    directions of a pair never carry different weights. *)
Theorem graph_undirected_simple s :
  reachable s ->
  forall a b,
    (forall w, edge_weight (deliveryGraph s) a b = Some w <->
               edge_weight (deliveryGraph s) b a = Some w) /\
    (forall w1 w2, edge_weight (deliveryGraph s) a b = Some w1 ->
                   edge_weight (deliveryGraph s) b a = Some w2 -> w1 = w2).
Proof.
  intros Hr.
  assert (forall a b, edge_weight (deliveryGraph s) a b =
                      edge_weight (deliveryGraph s) b a) as Hsym.
  { induction Hr as [|fuel s c s' m _ IH He]; [done|].
    by eapply graph_symmetric_step. }
  intros a b. split.
  - intros w. by rewrite Hsym.
  - intros w1 w2 H1 H2. rewrite Hsym in H1. congruence.
Qed.

Lemma graph_undirected_simple_witness :
  let s := state_after depot_a_b in
  reachable s /\
  forall a b,
    (forall w, edge_weight (deliveryGraph s) a b = Some w <->
               edge_weight (deliveryGraph s) b a = Some w) /\
    (forall w1 w2, edge_weight (deliveryGraph s) a b = Some w1 ->
                   edge_weight (deliveryGraph s) b a = Some w2 -> w1 = w2).
Proof.
  intros s.
  assert (reachable s) as Hr by apply state_after_reachable.
  split; [exact Hr|]. exact (graph_undirected_simple s Hr).
Defined.

(** ** Rejected requests *)

(** C4: [addRoute] and [placeOrder] with an endpoint that is not a
    location print their error and leave the whole state as it was. *)
Theorem unknown_location_no_mutation s a b :
  deliveryGraph s !! a = None \/ deliveryGraph s !! b = None ->
  (forall distance, addRoute s a b distance = (s, RouteLocationMissing)) /\
  (forall price, placeOrder s a b price = (s, OrderLocationMissing)).
Proof.
  intros Hm.
  assert (count (deliveryGraph s) a && count (deliveryGraph s) b = false) as Hc.
  { apply andb_false_iff. rewrite !count_false. exact Hm. }
  split; intros ?; unfold addRoute, placeOrder; by rewrite Hc.
Qed.

Lemma unknown_location_no_mutation_witness :
  let s := (addLocation fresh "Depot").1 in
  (deliveryGraph s !! "Depot"%string = None \/
   deliveryGraph s !! "Nowhere"%string = None) /\
  (forall distance,
     addRoute s "Depot" "Nowhere" distance = (s, RouteLocationMissing)) /\
  (forall price,
     placeOrder s "Depot" "Nowhere" price = (s, OrderLocationMissing)).
Proof.
  intros s.
  assert (deliveryGraph s !! "Depot"%string = None \/
          deliveryGraph s !! "Nowhere"%string = None) as Hm.
  { right. apply count_false. vm_compute. reflexivity. }
  split; [exact Hm|].
  exact (unknown_location_no_mutation s "Depot" "Nowhere" Hm).
Defined.

(** ** Processing and reverting *)

(** C6: with a pending order [o] at the front, [processNextOrder]
    followed by [revertLastDelivery] puts [o], unchanged, at the back of
    the queue; the queue keeps its length and the rest of the state is as
    before. *)
Theorem process_then_revert s o rest :
  incomingOrders s = o :: rest ->
  let s1 := (processNextOrder s).1 in
  let s2 := (revertLastDelivery s1).1 in
  incomingOrders s2 = rest ++ [o] /\
  last (incomingOrders s2) = Some o /\
  length (incomingOrders s2) = length (incomingOrders s) /\
  completedOrders s2 = completedOrders s /\
  deliveryGraph s2 = deliveryGraph s /\
  allOrders s2 = allOrders s /\
  nextOrderId s2 = nextOrderId s /\
  (processNextOrder s).2 = OrderDelivered (id o) /\
  (revertLastDelivery s1).2 = Reverted (id o).
Proof.
  intros Hq. unfold processNextOrder, revertLastDelivery. rewrite Hq. simpl.
  repeat split; try done.
  - apply last_snoc.
  - rewrite length_app. simpl. lia.
Qed.

Lemma process_then_revert_witness :
  let o := mkOrder 1001 "A" "B" (S754_zero false) in
  let o' := mkOrder 1002 "B" "A" (S754_zero false) in
  let s := {| incomingOrders := [o; o']; completedOrders := [];
              deliveryGraph := ∅; allOrders := ∅; nextOrderId := 1003 |} in
  incomingOrders s = o :: [o'] /\
  incomingOrders (revertLastDelivery (processNextOrder s).1).1 = [o'; o].
Proof.
  intros o o' s.
  assert (incomingOrders s = o :: [o']) as Hq by reflexivity.
  split; [exact Hq|].
  exact (proj1 (process_then_revert s o [o'] Hq)).
Defined.

(** ** Route optimisation is a query *)

(** C10: whenever [optimizeDeliveryRoute] returns, with a report or with
    one of its errors, the state is the one it was called in. *)
Theorem optimizeDeliveryRoute_pure fuel s orderId s' m :
  optimizeDeliveryRoute fuel s orderId = Some (s', m) ->
  incomingOrders s' = incomingOrders s /\
  completedOrders s' = completedOrders s /\
  deliveryGraph s' = deliveryGraph s /\
  allOrders s' = allOrders s /\
  nextOrderId s' = nextOrderId s.
Proof.
  intros Ho. by rewrite (optimizeDeliveryRoute_state _ _ _ _ _ Ho).
Qed.

(** ** The priority queue *)

Lemma least_elem best q : least best q ∈ best :: q.
Proof.
  revert best. induction q as [|x q IH]; intros best; simpl.
  - apply list_elem_of_here.
  - specialize (IH (if entry_ltb x best then x else best)).
    apply elem_of_cons in IH as [->|IH].
    + destruct (entry_ltb x best); [apply list_elem_of_further|];
        apply list_elem_of_here.
    + by do 2 apply list_elem_of_further.
Qed.

Lemma entry_ltb_false x y : entry_ltb x y = false -> y.1 <= x.1.
Proof.
  unfold entry_ltb. intros [Hlt _]%orb_false_iff.
  by apply Z.ltb_ge in Hlt.
Qed.

Lemma entry_ltb_true x y : entry_ltb x y = true -> x.1 <= y.1.
Proof.
  unfold entry_ltb. intros [Hlt|[Heq _]%andb_true_iff]%orb_true_iff.
  - apply Z.ltb_lt in Hlt. lia.
  - apply Z.eqb_eq in Heq. lia.
Qed.

Lemma least_le best q : (least best q).1 <= best.1.
Proof.
  revert best. induction q as [|x q IH]; intros best; simpl; [lia|].
  etrans; [apply IH|].
  destruct (entry_ltb x best) eqn:Hlt; [by apply entry_ltb_true|lia].
Qed.

Lemma least_min best q y : y ∈ best :: q -> (least best q).1 <= y.1.
Proof.
  revert best. induction q as [|x q IH]; intros best; simpl.
  - intros ->%list_elem_of_singleton. lia.
  - intros [->|[->|Hy]%elem_of_cons]%elem_of_cons.
    + etrans; [apply least_le|].
      destruct (entry_ltb x best) eqn:Hlt; [by apply entry_ltb_true|lia].
    + etrans; [apply least_le|].
      destruct (entry_ltb x best) eqn:Hlt; [lia|by apply entry_ltb_false].
    + apply IH. by apply list_elem_of_further.
Qed.

Lemma pq_top_Some q top :
  pq_top q = Some top -> top ∈ q /\ forall y, y ∈ q -> top.1 <= y.1.
Proof.
  destruct q as [|x q]; [done|]. intros [= <-]. split.
  - apply least_elem.
  - apply least_min.
Qed.

Lemma pq_top_None q : pq_top q = None -> q = [].
Proof. by destruct q. Qed.

Lemma pq_remove_length e q : e ∈ q -> S (length (pq_remove e q)) = length q.
Proof.
  induction q as [|x q IH]; [by intros ?%elem_of_nil|].
  simpl. destruct (decide (x = e)) as [->|Hne]; [done|].
  intros [->|He]%elem_of_cons; [done|]. simpl. by rewrite IH.
Qed.

Lemma elem_of_pq_remove e q y : y ∈ pq_remove e q -> y ∈ q.
Proof.
  induction q as [|x q IH]; [done|].
  simpl. destruct (decide (x = e)) as [->|Hne].
  - apply list_elem_of_further.
  - intros [->|Hy]%elem_of_cons; [apply list_elem_of_here|].
    apply list_elem_of_further. by apply IH.
Qed.

Lemma elem_of_pq_remove_ne e q y : y ∈ q -> y <> e -> y ∈ pq_remove e q.
Proof.
  intros Hy Hne. induction q as [|x q IH]; [done|].
  simpl. apply elem_of_cons in Hy as [->|Hy].
  - rewrite decide_False by done. apply list_elem_of_here.
  - destruct (decide (x = e)); [done|].
    apply list_elem_of_further. by apply IH.
Qed.

(** ** One relaxation, on known locations *)

Lemma relax_known current st n w dc dn :
  distances st !! current = Some dc ->
  distances st !! n = Some dn ->
  relax current st (n, w) =
  if relaxes dc w dn then
    {| graph := graph st;
       distances := <[n := int_add dc w]> (distances st);
       predecessors := <[n := current]> (predecessors st);
       visited := visited st;
       pq := (int_add dc w, n) :: pq st |}
  else st.
Proof.
  intros Hc Hn. unfold relax, relaxes. cbn [fst snd].
  rewrite (index_present _ _ _ _ Hc).
  case_bool_decide as Hmax; cbn [andb]; [|by destruct st].
  rewrite (index_present _ _ _ _ Hc), (index_present _ _ _ _ Hn).
  destruct (int_add dc w <? dn); [|by destruct st].
  rewrite (index_present _ _ _ _ Hc), (index_present _ _ _ _ Hn).
  rewrite (index_present _ (<[n:=int_add dc w]> (distances st)) n (int_add dc w))
    by apply lookup_insert_eq.
  unfold index. destruct (predecessors st !! n); [done|].
  by rewrite insert_insert_eq.
Qed.

(** ** The main loop ends *)

Lemma relax_visited current st edge : visited (relax current st edge) = visited st.
Proof.
  unfold relax.
  repeat (match goal with
          | |- context [index ?d ?m ?k] => destruct (index d m k)
          end; simpl).
  repeat case_match; done.
Qed.

Lemma relax_pq_length current st edge :
  (length (pq (relax current st edge)) <= S (length (pq st)))%nat.
Proof.
  unfold relax.
  repeat (match goal with
          | |- context [index ?d ?m ?k] => destruct (index d m k)
          end; simpl).
  repeat case_match; simpl; lia.
Qed.

Lemma fold_relax_visited current l st :
  visited (fold_left (relax current) l st) = visited st.
Proof.
  revert st. induction l as [|e l IH]; intros st; simpl; [done|].
  by rewrite IH, relax_visited.
Qed.

Lemma fold_relax_pq_length current l st :
  (length (pq (fold_left (relax current) l st)) <= length (pq st) + length l)%nat.
Proof.
  revert st. induction l as [|e l IH]; intros st; simpl; [lia|].
  etrans; [apply IH|]. pose proof (relax_pq_length current st e). lia.
Qed.

Lemma explore_visited current st : visited (explore current st) = visited st.
Proof.
  unfold explore. destruct (count (graph st) current); [|done].
  destruct (index ∅ (graph st) current). by rewrite fold_relax_visited.
Qed.

Lemma explore_pq_length current st :
  (length (pq (explore current st)) <=
   length (pq st) + match graph st !! current with
                    | Some adj => size adj
                    | None => O
                    end)%nat.
Proof.
  unfold explore. destruct (count (graph st) current) eqn:Hc.
  - apply count_true in Hc as [adj Hadj].
    rewrite (index_present _ _ _ _ Hadj), Hadj.
    etrans; [apply fold_relax_pq_length|]. simpl. by rewrite length_entries.
  - lia.
Qed.

Lemma unvisited_cost_visit g vis current adj :
  g !! current = Some adj -> current ∉ vis ->
  (unvisited_cost g ({[current]} ∪ vis) + S (size adj))%nat = unvisited_cost g vis.
Proof.
  intros Hg Hv. unfold unvisited_cost.
  rewrite <- !(map_to_list_delete g current adj Hg). simpl.
  rewrite decide_True
    by (apply elem_of_union; left; by apply elem_of_singleton).
  rewrite decide_False by done.
  assert (forall l : list (string * gmap string Z),
            current ∉ l.*1 ->
            sum_list_with (fun kv => if decide (kv.1 ∈ {[current]} ∪ vis)
                                     then O else S (size kv.2)) l =
            sum_list_with (fun kv => if decide (kv.1 ∈ vis)
                                     then O else S (size kv.2)) l) as Hrest.
  { induction l as [|[k a] l IH]; [done|]. simpl.
    intros [Hk Hl]%not_elem_of_cons. rewrite IH by done.
    destruct (decide (k ∈ vis)) as [Hin|Hin].
    - rewrite decide_True; [done|]. apply elem_of_union. by right.
    - rewrite decide_False; [done|].
      intros [Hc%elem_of_singleton|?]%elem_of_union; [|done].
      apply Hk. by rewrite Hc. }
  rewrite Hrest; [lia|].
  intros [[k a] [Hk Hin]]%list_elem_of_fmap. simpl in Hk. subst k.
  apply elem_of_map_to_list in Hin. by rewrite lookup_delete_eq in Hin.
Qed.

Lemma unvisited_cost_absent g vis current :
  g !! current = None ->
  unvisited_cost g ({[current]} ∪ vis) = unvisited_cost g vis.
Proof.
  intros Hg. unfold unvisited_cost.
  assert (forall l : list (string * gmap string Z),
            current ∉ l.*1 ->
            sum_list_with (fun kv => if decide (kv.1 ∈ {[current]} ∪ vis)
                                     then O else S (size kv.2)) l =
            sum_list_with (fun kv => if decide (kv.1 ∈ vis)
                                     then O else S (size kv.2)) l) as Hrest.
  { induction l as [|[k a] l IH]; [done|]. simpl.
    intros [Hk Hl]%not_elem_of_cons. rewrite IH by done.
    destruct (decide (k ∈ vis)) as [Hin|Hin].
    - rewrite decide_True; [done|]. apply elem_of_union. by right.
    - rewrite decide_False; [done|].
      intros [Hc%elem_of_singleton|?]%elem_of_union; [|done].
      apply Hk. by rewrite Hc. }
  apply Hrest.
  intros [[k a] [Hk Hin]]%list_elem_of_fmap. simpl in Hk. subst k.
  apply elem_of_map_to_list in Hin. congruence.
Qed.

(** Every iteration lowers the measure. *)
Lemma search_loop_terminates fuel st :
  (search_measure st <= fuel)%nat -> is_Some (search_loop fuel st).
Proof.
  revert st. induction fuel as [|fuel IH]; intros st Hm.
  - unfold search_measure in Hm. destruct (pq st) eqn:Hq; [|simpl in Hm; lia].
    simpl. by rewrite Hq.
  - simpl. destruct (pq_top (pq st)) as [top|] eqn:Ht; [|done].
    apply pq_top_Some in Ht as [Hin _].
    pose proof (pq_remove_length _ _ Hin) as Hlen.
    unfold search_measure in Hm.
    case_bool_decide as Hv; apply IH; unfold search_measure.
    + simpl in *. lia.
    + rewrite explore_graph, explore_visited.
      etrans; [apply Nat.add_le_mono_r, explore_pq_length|]. simpl in *.
      destruct (graph st !! top.2) as [adj|] eqn:Hg.
      * pose proof (unvisited_cost_visit _ _ _ _ Hg Hv). lia.
      * rewrite (unvisited_cost_absent _ _ _ Hg). lia.
Qed.

Lemma search_loop_fuel fuel fuel' st st' :
  search_loop fuel st = Some st' -> (fuel <= fuel')%nat ->
  search_loop fuel' st = Some st'.
Proof.
  revert fuel' st. induction fuel as [|fuel IH]; intros fuel' st; simpl.
  - destruct (pq_top (pq st)) eqn:Ht; [done|]. intros [= <-] _.
    destruct fuel'; simpl; by rewrite Ht.
  - destruct (pq_top (pq st)) as [top|] eqn:Ht.
    + intros Hs Hle. destruct fuel' as [|fuel']; [lia|]. simpl. rewrite Ht.
      case_bool_decide; apply IH; try done; lia.
    + intros [= <-] _. destruct fuel'; simpl; by rewrite Ht.
Qed.

Lemma search_loop_final fuel st st' :
  search_loop fuel st = Some st' -> pq st' = [].
Proof.
  revert st. induction fuel as [|fuel IH]; intros st; simpl.
  - destruct (pq_top (pq st)) eqn:Ht; [done|]. intros [= <-].
    by apply pq_top_None.
  - destruct (pq_top (pq st)) as [top|] eqn:Ht.
    + case_bool_decide; apply IH.
    + intros [= <-]. by apply pq_top_None.
Qed.

(** ** The invariant of the search *)

Lemma wrap_small z : INT_MIN <= z <= INT_MAX -> wrap z = z.
Proof.
  unfold wrap, INT_MIN, INT_MAX. intros Hz.
  rewrite Z.mod_small by lia. lia.
Qed.

Lemma edge_weight_Some g a b w :
  edge_weight g a b = Some w <->
  exists adj, g !! a = Some adj /\ adj !! b = Some w.
Proof.
  unfold edge_weight. destruct (g !! a) as [adj|]; split.
  - intros Hb. by exists adj.
  - by intros (? & [= <-] & Hb).
  - done.
  - by intros (? & [=] & _).
Qed.

Lemma init_distances_lookup g v :
  init_distances g !! v =
  match g !! v with Some _ => Some INT_MAX | None => None end.
Proof.
  unfold init_distances.
  assert (forall (l : list (string * gmap string Z)) (d : gmap string Z),
            fold_left (fun d kv => <[kv.1 := INT_MAX]> (index 0 d kv.1).1) l d !! v =
            if decide (v ∈ l.*1) then Some INT_MAX else d !! v) as Hfold.
  { induction l as [|[k a] l IH]; intros d; [done|].
    cbn [fold_left fmap list_fmap].
    - rewrite IH. destruct (decide (v ∈ l.*1)) as [Hin|Hin].
      + rewrite decide_True; [done|]. by apply list_elem_of_further.
      + destruct (decide (v = k)) as [->|Hne].
        * rewrite decide_True by apply list_elem_of_here.
          apply lookup_insert_eq.
        * rewrite decide_False by (by intros [?|?]%elem_of_cons).
          rewrite lookup_insert_ne by done.
          cbn [fst]. unfold index. destruct (d !! k); [done|].
          cbn [fst]. by rewrite lookup_insert_ne. }
  rewrite Hfold, lookup_empty.
  destruct (g !! v) as [adj|] eqn:Hg.
  - rewrite decide_True; [done|].
    apply list_elem_of_fmap. exists (v, adj). split; [done|].
    by apply elem_of_entries.
  - rewrite decide_False; [done|].
    intros [[k a] [-> Hin]]%list_elem_of_fmap.
    apply elem_of_entries in Hin. simpl in Hg. congruence.
Qed.

Lemma descends_refl st : descends st st.
Proof. repeat split; eauto using Z.le_refl. Qed.

Lemma descends_trans st1 st2 st3 :
  descends st1 st2 -> descends st2 st3 -> descends st1 st3.
Proof.
  intros (Hv1 & Hd1 & Hk1) (Hv2 & Hd2 & Hk2). repeat split.
  - congruence.
  - intros v d Hd. destruct (Hd1 _ _ Hd) as (d' & Hd' & Hle).
    destruct (Hd2 _ _ Hd') as (d'' & Hd'' & Hle'). exists d''. split; [done|lia].
  - intros v Hv. rewrite Hk2 by (by rewrite Hv1). by apply Hk1.
Qed.

Lemma relaxed_descends g st st' u :
  relaxed g st u -> u ∈ visited st -> descends st st' -> relaxed g st' u.
Proof.
  intros Hr Hu (Hv & Hd & Hk) v w du Hw Hdu.
  rewrite (Hk _ Hu) in Hdu.
  destruct (Hr _ _ _ Hw Hdu) as (dv & Hdv & Hle).
  destruct (Hd _ _ Hdv) as (dv' & Hdv' & Hle').
  exists dv'. split; [done|lia].
Qed.

Section SearchInvariant.
Context (g : Graph) (start : string) (W : Z).
Hypothesis Hclosed : closed g.
Hypothesis Hweights : weights_within W g.
Hypothesis HW : 0 <= W.
Hypothesis Hbound : W * Z.of_nat (size g) < INT_MAX.
Hypothesis Hstart : is_Some (g !! start).

Lemma edge_known a b w :
  edge_weight g a b = Some w ->
  is_Some (g !! a) /\ is_Some (g !! b) /\ 0 <= w <= W.
Proof.
  intros (adj & Ha & Hb)%edge_weight_Some. repeat split.
  - by exists adj.
  - exact (Hclosed _ _ Ha _ _ Hb).
  - apply (Hweights _ _ Ha _ _ Hb).
  - apply (Hweights _ _ Ha _ _ Hb).
Qed.

Lemma order_length (order : list string) :
  NoDup order -> (forall v, v ∈ order -> is_Some (g !! v)) ->
  (length order <= size g)%nat.
Proof.
  intros Hnd Hin.
  rewrite <- (size_dom (D := gset string) g).
  unfold size, set_size. simpl.
  apply submseteq_length, NoDup_submseteq; [done|].
  intros v Hv. apply elem_of_elements, elem_of_dom. by apply Hin.
Qed.

Lemma inv_order_length order m st :
  search_inv g start W order m st -> (length order <= size g)%nat.
Proof.
  intros Hinv. apply order_length; [apply Hinv|].
  intros v Hv. apply (inv_order Hinv) in Hv.
  destruct (inv_visited Hinv v Hv) as (d & Hd & _).
  apply (inv_dom Hinv). by exists d.
Qed.

Lemma inv_init :
  search_inv g start W [] 0
    {| graph := g;
       distances := <[start := 0]> (index 0 (init_distances g) start).1;
       predecessors := ∅; visited := ∅; pq := pq_push (0, start) [] |}.
Proof.
  destruct Hstart as [adj Hadj].
  assert (init_distances g !! start = Some INT_MAX) as Hi.
  { by rewrite init_distances_lookup, Hadj. }
  rewrite (index_present _ _ _ _ Hi). simpl.
  constructor; simpl.
  - done.
  - intros v. rewrite lookup_insert_is_Some, init_distances_lookup.
    destruct (decide (start = v)) as [<-|Hne].
    + rewrite Hadj. split; [by eexists|by left].
    + destruct (g !! v); split; try done.
      * intros _. by right.
      * by intros [?|[_ []]].
  - constructor.
  - intros v. split; [by intros ?%elem_of_nil|by intros ?%elem_of_empty].
  - intros v d. destruct (decide (start = v)) as [<-|Hne].
    + rewrite lookup_insert_eq. intros [= <-]. right. simpl. lia.
    + rewrite lookup_insert_ne, init_distances_lookup by done.
      destruct (g !! v); [|done]. intros [= <-]. by left.
  - by intros v ?%elem_of_empty.
  - apply lookup_insert_eq.
  - apply lookup_empty.
  - intros v u. by rewrite lookup_empty.
  - intros v u l1 l2. by rewrite lookup_empty.
  - intros v d Hne. rewrite lookup_insert_ne, init_distances_lookup by done.
    destruct (g !! v); [|done]. by intros [= <-].
  - intros k x [= -> ->]%list_elem_of_singleton. simpl.
    repeat split; try lia.
    exists 0. repeat split; [apply lookup_insert_eq|lia|].
    intros _. apply list_elem_of_here.
  - intros v d. destruct (decide (start = v)) as [<-|Hne].
    + rewrite lookup_insert_eq. intros [= <-] _. right. apply list_elem_of_here.
    + rewrite lookup_insert_ne, init_distances_lookup by done.
      destruct (g !! v); [|done]. by intros [= <-].
Qed.

(** One relaxation from the location being explored. *)
Lemma inv_relax order m st current n w :
  search_inv g start W order m st ->
  current ∈ visited st ->
  distances st !! current = Some m ->
  edge_weight g current n = Some w ->
  let st' := relax current st (n, w) in
  search_inv g start W order m st' /\
  descends st st' /\
  exists dn, distances st' !! n = Some dn /\ dn <= m + w.
Proof.
  intros Hinv Hcur Hm Hw st'.
  destruct (edge_known _ _ _ Hw) as (_ & Hn & Hw0 & HwW).
  apply (inv_dom Hinv) in Hn as [dn Hdn].
  pose proof (inv_order_length _ _ _ Hinv) as Hlen.
  destruct (inv_visited Hinv _ Hcur) as (m' & Hm' & Hmb & _).
  assert (m' = m) as -> by congruence.
  assert (W * (Z.of_nat (length order) - 1) + W <= W * Z.of_nat (size g)) as Hle.
  { nia. }
  assert (int_add m w = m + w) as Hadd.
  { unfold int_add. apply wrap_small. unfold INT_MIN, INT_MAX in *. lia. }
  subst st'. rewrite (relax_known _ _ _ _ _ _ Hm Hdn).
  unfold relaxes. rewrite Hadd.
  rewrite bool_decide_true by (unfold INT_MAX in *; lia). cbn [andb].
  destruct (m + w <? dn) eqn:Hlt; cycle 1.
  { apply Z.ltb_ge in Hlt. split; [done|]. split; [apply descends_refl|].
    by exists dn. }
  apply Z.ltb_lt in Hlt.
  assert (n ∉ visited st) as Hnv.
  { intros Hv. destruct (inv_visited Hinv _ Hv) as (d & Hd & _ & Hdm).
    assert (d = dn) by congruence. lia. }
  assert (n <> current) as Hnc by (by intros ->).
  assert (n <> start) as Hns.
  { intros ->. pose proof (inv_start Hinv) as Hs.
    assert (dn = 0) by congruence. lia. }
  split; [|split].
  - constructor; simpl.
    + apply Hinv.
    + intros v. rewrite lookup_insert_is_Some.
      rewrite <- (inv_dom Hinv). split.
      * intros [<-|[_ ?]]; [by exists dn|done].
      * intros Hv. destruct (decide (n = v)); [by left|by right].
    + apply Hinv.
    + apply Hinv.
    + intros v d. destruct (decide (n = v)) as [<-|Hne].
      * rewrite lookup_insert_eq. intros [= <-]. right. nia.
      * rewrite lookup_insert_ne by done. apply Hinv.
    + intros v Hv. rewrite lookup_insert_ne by (by intros ->).
      by apply Hinv.
    + rewrite lookup_insert_ne by done. apply Hinv.
    + rewrite lookup_insert_ne by done. apply Hinv.
    + intros v u. destruct (decide (n = v)) as [<-|Hne].
      * rewrite lookup_insert_eq. intros [= <-]. split; [done|].
        exists m, w. rewrite lookup_insert_ne by done.
        by rewrite lookup_insert_eq.
      * rewrite lookup_insert_ne by done. intros Hp.
        destruct (inv_pred Hinv _ _ Hp)
          as (Hu & du & w' & Hdu & Hw' & Hdv).
        split; [done|]. exists du, w'.
        rewrite !lookup_insert_ne; [done|done|by intros ->].
    + intros v u l1 l2. destruct (decide (n = v)) as [<-|Hne].
      * intros _ ->. exfalso. apply Hnv, (inv_order Hinv).
        apply elem_of_app. right. apply list_elem_of_here.
      * rewrite lookup_insert_ne by done. apply Hinv.
    + intros v d Hvs. destruct (decide (n = v)) as [<-|Hne].
      * intros _ _. by rewrite lookup_insert_eq.
      * rewrite !lookup_insert_ne by done. by apply Hinv.
    + intros k x [[= -> ->]|Hin]%elem_of_cons.
      * repeat split; try nia. exists (m + w).
        rewrite lookup_insert_eq. repeat split; [lia|].
        intros _. apply list_elem_of_here.
      * destruct (inv_pq Hinv _ _ Hin)
          as (Hmk & Hkb & d & Hd & Hdk & Hq).
        repeat split; [done|done|].
        destruct (decide (n = x)) as [<-|Hne].
        -- exists (m + w). rewrite lookup_insert_eq.
           assert (d = dn) by congruence.
           repeat split; [lia|]. intros _. apply list_elem_of_here.
        -- exists d. rewrite lookup_insert_ne by done.
           repeat split; [done|done|].
           intros Hx. apply list_elem_of_further. by apply Hq.
    + intros v d. destruct (decide (n = v)) as [<-|Hne].
      * rewrite lookup_insert_eq. intros [= <-] _. right.
        apply list_elem_of_here.
      * rewrite lookup_insert_ne by done. intros Hd Hfin.
        destruct (inv_frontier Hinv _ _ Hd Hfin) as [?|?];
          [by left|right]. by apply list_elem_of_further.
  - repeat split; simpl.
    + intros v d Hd. destruct (decide (n = v)) as [<-|Hne].
      * exists (m + w). rewrite lookup_insert_eq.
        assert (d = dn) by congruence. split; [done|lia].
      * exists d. by rewrite lookup_insert_ne.
    + intros v Hv. rewrite lookup_insert_ne; [done|by intros ->].
  - exists (m + w). simpl. by rewrite lookup_insert_eq.
Qed.

Lemma inv_fold_relax l order m st current :
  (forall n w, (n, w) ∈ l -> edge_weight g current n = Some w) ->
  search_inv g start W order m st ->
  current ∈ visited st ->
  distances st !! current = Some m ->
  let st' := fold_left (relax current) l st in
  search_inv g start W order m st' /\
  descends st st' /\
  forall n w, (n, w) ∈ l ->
    exists dn, distances st' !! n = Some dn /\ dn <= m + w.
Proof.
  revert st. induction l as [|[n w] l IH]; intros st Hl Hinv Hcur Hm; simpl.
  - split; [done|]. split; [apply descends_refl|].
    by intros n w ?%elem_of_nil.
  - assert (edge_weight g current n = Some w) as Hw.
    { apply Hl, list_elem_of_here. }
    destruct (inv_relax _ _ _ _ _ _ Hinv Hcur Hm Hw) as (Hinv1 & Hd1 & dn & Hdn & Hle).
    pose proof Hd1 as (Hv1 & Hmono1 & Hkeep1).
    destruct (IH (relax current st (n, w))) as (Hinv' & Hd' & Hall).
    + intros n' w' Hin. by apply Hl, list_elem_of_further.
    + done.
    + by rewrite Hv1.
    + by rewrite Hkeep1.
    + split; [done|]. split; [by eapply descends_trans|].
      intros n' w' [[= -> ->]|Hin]%elem_of_cons; [|by apply Hall].
      destruct Hd' as (_ & Hmono' & _).
      destruct (Hmono' _ _ Hdn) as (dn' & Hdn' & Hle').
      exists dn'. split; [done|lia].
Qed.

(** Exploring the location that was just visited. *)
Lemma inv_explore order m st current :
  search_inv g start W order m st ->
  current ∈ visited st ->
  distances st !! current = Some m ->
  let st' := explore current st in
  search_inv g start W order m st' /\
  descends st st' /\ relaxed g st' current.
Proof.
  intros Hinv Hcur Hm st'. subst st'. unfold explore.
  rewrite (inv_graph Hinv).
  assert (is_Some (g !! current)) as [adj Hadj].
  { apply (inv_dom Hinv). by exists m. }
  assert (count g current = true) as -> by (apply count_true; by exists adj).
  rewrite (index_present _ _ _ _ Hadj).
  assert ({| graph := g; distances := distances st;
             predecessors := predecessors st; visited := visited st;
             pq := pq st |} = st) as ->.
  { rewrite <- (inv_graph Hinv). by destruct st. }
  destruct (inv_fold_relax (entries adj) order m st current)
    as (Hinv' & Hd' & Hall); try done.
  { intros n w Hin%elem_of_entries. apply edge_weight_Some. by exists adj. }
  split; [done|]. split; [done|].
  intros v w du (adj' & Hadj' & Hv)%edge_weight_Some Hdu.
  assert (adj' = adj) as -> by congruence.
  destruct Hd' as (_ & _ & Hkeep). rewrite (Hkeep _ Hcur) in Hdu.
  assert (du = m) as -> by congruence.
  apply Hall. by apply elem_of_entries.
Qed.

(** A queue entry of a location that was visited before is dropped. *)
Lemma inv_skip order m st top :
  search_inv g start W order m st ->
  pq_top (pq st) = Some top -> top.2 ∈ visited st ->
  search_inv g start W order m
    {| graph := graph st; distances := distances st;
       predecessors := predecessors st; visited := visited st;
       pq := pq_remove top (pq st) |}.
Proof.
  intros Hinv [Htop Hmin]%pq_top_Some Hvis.
  constructor; simpl; try apply Hinv.
  - intros k x Hin%elem_of_pq_remove.
    destruct (inv_pq Hinv _ _ Hin) as (Hmk & Hkb & d & Hd & Hdk & Hq).
    repeat split; [done|done|]. exists d. repeat split; [done|done|].
    intros Hx. apply elem_of_pq_remove_ne; [by apply Hq|].
    intros <-. by apply Hx.
  - intros v d Hd Hfin.
    destruct (inv_frontier Hinv _ _ Hd Hfin) as [?|Hin]; [by left|].
    destruct (decide ((d, v) = top)) as [<-|Hne]; [by left|].
    right. by apply elem_of_pq_remove_ne.
Qed.

(** The closest location not yet visited is visited. *)
Lemma inv_visit order m st top :
  search_inv g start W order m st ->
  pq_top (pq st) = Some top -> top.2 ∉ visited st ->
  let st1 := {| graph := graph st; distances := distances st;
                predecessors := predecessors st;
                visited := {[top.2]} ∪ visited st;
                pq := pq_remove top (pq st) |} in
  search_inv g start W (top.2 :: order) top.1 st1 /\
  distances st1 !! top.2 = Some top.1.
Proof.
  intros Hinv [Htop Hmin]%pq_top_Some Hvis st1.
  destruct top as [k x]. simpl in *.
  destruct (inv_pq Hinv _ _ Htop) as (Hmk & Hkb & d & Hd & Hdk & Hq).
  pose proof (Hmin _ (Hq Hvis)) as Hkd. simpl in Hkd.
  assert (d = k) as -> by lia. clear Hkd Hdk.
  pose proof (inv_order_length _ _ _ Hinv) as Hlen.
  assert (0 <= k) as Hk0.
  { destruct (inv_bound Hinv _ _ Hd) as [->|?]; [|lia].
    unfold INT_MAX in *. nia. }
  assert (x ∉ order) as Hxo by (by rewrite (inv_order Hinv)).
  split; [|done].
  constructor; simpl; try apply Hinv.
  - constructor; [done|apply Hinv].
  - intros v. rewrite elem_of_cons, elem_of_union, elem_of_singleton.
    by rewrite (inv_order Hinv).
  - intros v d Hv. destruct (inv_bound Hinv _ _ Hv) as [->|?];
      [by left|right]. nia.
  - intros v [->%elem_of_singleton|Hv]%elem_of_union.
    + exists k. repeat split; [done|lia|nia|lia].
    + destruct (inv_visited Hinv _ Hv) as (d & Hdv & Hb & Hdm).
      exists d. repeat split; [done|lia|nia|lia].
  - intros v u Hp.
    destruct (inv_pred Hinv _ _ Hp) as (Hu & Hrest).
    split; [|done]. apply elem_of_union. by right.
  - intros v u l1 l2 Hp Ho. destruct l1 as [|y l1]; simplify_eq/=.
    + apply (inv_order Hinv).
      by destruct (inv_pred Hinv _ _ Hp).
    + by eapply (inv_pred_order Hinv).
  - intros k' x' Hin. pose proof (elem_of_pq_remove _ _ _ Hin) as Hin'.
    destruct (inv_pq Hinv _ _ Hin') as (_ & Hkb' & d & Hdx & Hdk & Hq').
    pose proof (Hmin _ Hin') as Hkk. simpl in Hkk.
    repeat split; [done|nia|]. exists d. repeat split; [done|done|].
    intros [Hne Hx]%not_elem_of_union.
    apply elem_of_pq_remove_ne; [by apply Hq'|].
    intros [= _ ->]. apply Hne. by apply elem_of_singleton.
  - intros v d Hv Hfin.
    destruct (inv_frontier Hinv _ _ Hv Hfin) as [?|Hin].
    + left. apply elem_of_union. by right.
    + destruct (decide (v = x)) as [->|Hne].
      * left. apply elem_of_union. left. by apply elem_of_singleton.
      * right. apply elem_of_pq_remove_ne; [done|]. by intros [= _ ->].
Qed.

Lemma relaxed_distances st st' u :
  distances st' = distances st -> relaxed g st u -> relaxed g st' u.
Proof. intros Heq Hr v w du. rewrite Heq. apply Hr. Qed.

(** The invariant holds when the main loop ends. *)
Lemma search_loop_inv fuel st st' order m :
  search_inv g start W order m st -> settled g st ->
  search_loop fuel st = Some st' ->
  exists order' m', search_inv g start W order' m' st' /\ settled g st'.
Proof.
  revert st order m. induction fuel as [|fuel IH]; intros st order m Hinv Hset.
  - simpl. destruct (pq_top (pq st)); [done|]. intros [= <-]. eauto.
  - simpl. destruct (pq_top (pq st)) as [top|] eqn:Htop;
      [|intros [= <-]; eauto].
    case_bool_decide as Hvis.
    + apply (IH _ order m).
      * by apply inv_skip.
      * intros u Hu. eapply relaxed_distances; [|by apply Hset]. done.
    + destruct (inv_visit _ _ _ _ Hinv Htop Hvis) as (Hinv1 & Hd1).
      match type of Hinv1 with
      | search_inv _ _ _ _ _ ?s => set (st1 := s) in *
      end.
      assert (top.2 ∈ visited st1) as Hcur.
      { apply elem_of_union. left. by apply elem_of_singleton. }
      destruct (inv_explore _ _ _ _ Hinv1 Hcur Hd1) as (Hinv2 & Hdesc & Hrel).
      apply (IH _ (top.2 :: order) top.1); [done|].
      intros u. rewrite explore_visited.
      intros [->%elem_of_singleton|Hu]%elem_of_union; [done|].
      apply (relaxed_descends g st1 _ u); [| |done].
      * eapply relaxed_distances; [|by apply Hset]. done.
      * apply elem_of_union. by right.
Qed.

(** *** What the search has found when it ends *)

Lemma path_weight_step a b rest :
  path_weight g (a :: b :: rest) =
  match edge_weight g a b, path_weight g (b :: rest) with
  | Some w, Some t => Some (w + t)
  | _, _ => None
  end.
Proof. done. Qed.

Lemma path_weight_nonneg path t : path_weight g path = Some t -> 0 <= t.
Proof.
  revert t. induction path as [|a path IH]; intros t; [by intros [= <-]|].
  destruct path as [|b rest]; [by intros [= <-]|].
  rewrite path_weight_step.
  destruct (edge_weight g a b) as [w|] eqn:Hw; [|done].
  destruct (path_weight g (b :: rest)) as [t'|]; [|done].
  intros [= <-]. specialize (IH _ eq_refl).
  destruct (edge_known _ _ _ Hw) as (_ & _ & ? & _). lia.
Qed.

Lemma path_weight_snoc path u v t w :
  last path = Some u -> path_weight g path = Some t ->
  edge_weight g u v = Some w ->
  path_weight g (path ++ [v]) = Some (t + w).
Proof.
  revert t. induction path as [|a path IH]; intros t; [done|].
  destruct path as [|b rest].
  - intros [= ->] [= <-] Hw. simpl. rewrite Hw. f_equal. lia.
  - intros Hlast. rewrite path_weight_step.
    destruct (edge_weight g a b) as [wab|] eqn:Hab; [|done].
    destruct (path_weight g (b :: rest)) as [t'|] eqn:Ht'; [|done].
    intros [= <-] Hw.
    change ((a :: b :: rest) ++ [v]) with (a :: b :: (rest ++ [v])).
    rewrite path_weight_step, Hab.
    change (b :: rest ++ [v]) with ((b :: rest) ++ [v]).
    rewrite (IH t') by done. f_equal. lia.
Qed.

Lemma route_snoc a u v path t w :
  route_from_to g a u path t -> edge_weight g u v = Some w ->
  route_from_to g a v (path ++ [v]) (t + w).
Proof.
  intros (Hhead & Hlast & Hweight) Hw. repeat split.
  - destruct path; [done|]. exact Hhead.
  - apply last_snoc.
  - by eapply path_weight_snoc.
Qed.

(** [calculatePathDistance] adds up the weights without overflow. *)
Lemma sum_edges_weight path t total :
  path_weight g path = Some t -> 0 <= total -> total + t <= INT_MAX ->
  sum_edges g path total = (g, total + t).
Proof.
  revert t total. induction path as [|a path IH]; intros t total.
  { intros [= <-] _ _. simpl. f_equal. lia. }
  destruct path as [|b rest].
  { intros [= <-] _ _. simpl. f_equal. lia. }
  rewrite path_weight_step, sum_edges_step.
  destruct (edge_weight g a b) as [w|] eqn:Hw; [|done].
  destruct (path_weight g (b :: rest)) as [t'|] eqn:Ht'; [|done].
  intros [= <-] Htotal Hmax.
  pose proof (path_weight_nonneg _ _ Ht') as Ht0.
  destruct (edge_known _ _ _ Hw) as (_ & _ & Hw0 & _).
  apply edge_weight_Some in Hw as (adj & Ha & Hb).
  assert (count g a = true) as -> by (apply count_true; by exists adj).
  rewrite !(index_present _ _ _ _ Ha).
  assert (count adj b = true) as -> by (apply count_true; by exists w).
  rewrite (index_present _ _ _ _ Hb), (insert_id _ _ _ Ha).
  assert (int_add total w = total + w) as ->.
  { apply wrap_small. unfold INT_MIN, INT_MAX in *. lia. }
  rewrite (IH t') by (done || lia). f_equal. lia.
Qed.

Section Final.
Context (order : list string) (m : Z) (st : Search).
Hypothesis Hinv : search_inv g start W order m st.
Hypothesis Hset : settled g st.
Hypothesis Hdone : pq st = [].

Lemma final_visited v d :
  distances st !! v = Some d -> d <> INT_MAX -> v ∈ visited st.
Proof.
  intros Hd Hfin.
  destruct (inv_frontier Hinv _ _ Hd Hfin) as [?|Hin]; [done|].
  rewrite Hdone in Hin. by apply elem_of_nil in Hin.
Qed.

(** No route is shorter than the recorded distance. *)
Lemma final_lower path u v t du :
  route_from_to g u v path t ->
  distances st !! u = Some du -> du <> INT_MAX ->
  exists dv, distances st !! v = Some dv /\ dv <= du + t /\ dv <> INT_MAX.
Proof.
  revert u t du. induction path as [|a path IH]; intros u t du.
  { by intros ([=] & _). }
  destruct path as [|b rest].
  { intros ([= ->] & [= ->] & [= <-]) Hdu Hfin.
    exists du. repeat split; [done|lia|done]. }
  intros ([= ->] & Hlast & Hweight) Hdu Hfin.
  rewrite path_weight_step in Hweight.
  destruct (edge_weight g u b) as [w|] eqn:Hw; [|done].
  destruct (path_weight g (b :: rest)) as [t'|] eqn:Ht'; [|done].
  injection Hweight as <-.
  pose proof (final_visited _ _ Hdu Hfin) as Hu.
  destruct (Hset _ Hu _ _ _ Hw Hdu) as (db & Hdb & Hle).
  destruct (inv_visited Hinv _ Hu) as (du' & Hdu' & Hb & _).
  assert (du' = du) as -> by congruence.
  destruct (edge_known _ _ _ Hw) as (_ & _ & Hw0 & HwW).
  pose proof (inv_order_length _ _ _ Hinv) as Hlen.
  assert (db <> INT_MAX) as Hdbfin by (unfold INT_MAX in *; nia).
  destruct (IH b t' db) as (dv & Hdv & Hle' & Hfin'); [|done|done|].
  { repeat split; [done|done]. }
  exists dv. repeat split; [done|lia|done].
Qed.

(** The walk back from a visited location reaches [start] along a
    route whose weight is the recorded distance. *)
Lemma final_walk_back fuel l1 v l2 acc :
  order = l1 ++ v :: l2 -> v <> start -> (length l2 < fuel)%nat ->
  exists chain d,
    walk_back fuel (predecessors st) start v acc = Some (acc ++ v :: chain) /\
    distances st !! v = Some d /\
    route_from_to g start v (rev (v :: chain)) d.
Proof.
  revert l1 v l2 acc. induction fuel as [|fuel IH]; intros l1 v l2 acc Ho Hvs Hf;
    [lia|].
  assert (v ∈ visited st) as Hv.
  { apply (inv_order Hinv). rewrite Ho.
    apply elem_of_app. right. apply list_elem_of_here. }
  destruct (inv_visited Hinv _ Hv) as (d & Hd & Hb & _).
  pose proof (inv_order_length _ _ _ Hinv) as Hlen.
  assert (d <> INT_MAX) as Hfin by (unfold INT_MAX in *; nia).
  destruct (inv_has_pred Hinv _ _ Hvs Hd Hfin) as [u Hu].
  destruct (inv_pred Hinv _ _ Hu) as (Huv & du & w & Hdu & Hw & Hdv).
  assert (d = du + w) as -> by congruence.
  cbn [walk_back].
  assert (count (predecessors st) v = true) as ->
    by (apply count_true; by exists u).
  rewrite (index_present _ _ _ _ Hu).
  case_bool_decide as Hus.
  - subst u. exists [start], (du + w). split; [|split; [done|]].
    { by rewrite <- app_assoc. }
    assert (du = 0) as ->.
    { pose proof (inv_start Hinv). congruence. }
    repeat split. simpl. rewrite Hw. f_equal. lia.
  - pose proof (inv_pred_order Hinv _ _ _ _ Hu Ho) as Hin.
    apply list_elem_of_split in Hin as (l1' & l2' & ->).
    destruct (IH (l1 ++ v :: l1') u l2' (acc ++ [v])) as (chain & du' & Hwalk & Hdu' & Hroute).
    + by rewrite <- app_assoc.
    + done.
    + rewrite length_app in Hf. simpl in Hf. lia.
    + assert (du' = du) as -> by congruence.
      exists (u :: chain), (du + w). split; [|split; [done|]].
      * rewrite Hwalk. by rewrite <- app_assoc.
      * change (rev (v :: u :: chain)) with (rev (u :: chain) ++ [v]).
        by apply (route_snoc start u).
Qed.

(** Every finite recorded distance is the weight of a route. *)
Lemma final_route v d :
  distances st !! v = Some d -> d <> INT_MAX ->
  exists path, route_from_to g start v path d.
Proof.
  intros Hd Hfin. destruct (decide (v = start)) as [->|Hne].
  - exists [start]. pose proof (inv_start Hinv).
    assert (d = 0) as -> by congruence. done.
  - pose proof (final_visited _ _ Hd Hfin) as Hv.
    apply (inv_order Hinv), list_elem_of_split in Hv
      as (l1 & l2 & Ho).
    destruct (final_walk_back (S (length l2)) l1 v l2 [] Ho Hne)
      as (chain & d' & _ & Hd' & Hroute); [lia|].
    assert (d' = d) as -> by congruence. by eexists.
Qed.
End Final.
End SearchInvariant.

(** ** The result of [findShortestPath] *)

Lemma search_ends g W start fuel :
  closed g -> no_overflow W g -> is_Some (g !! start) ->
  (enough_fuel g <= fuel)%nat ->
  exists st order m,
    run_search fuel g start = Some st /\
    search_inv g start W order m st /\ settled g st /\ pq st = [].
Proof.
  intros Hclosed (Hweights & HW & Hbound) Hstart Hfuel.
  pose proof (inv_init g start W Hstart) as Hinit.
  unfold run_search.
  destruct (index 0 (init_distances g) start) as [d1 x]. cbn [fst] in Hinit.
  match type of Hinit with
  | search_inv _ _ _ _ _ ?s => set (st0 := s) in *
  end.
  destruct (search_loop_terminates fuel st0) as [st Hst].
  { unfold search_measure, enough_fuel in *. simpl. lia. }
  destruct (search_loop_inv g start W Hclosed Hweights HW Hbound
              fuel st0 st [] 0 Hinit) as (order & m & Hinv & Hset); [|done|].
  { by intros u ?%elem_of_empty. }
  exists st, order, m. split; [done|]. split; [done|]. split; [done|].
  by eapply search_loop_final.
Qed.

(** The query returns the empty path when [end_] is [start] or was not
    reached, and otherwise a route whose weight is the recorded distance. *)
Lemma findShortestPath_spec g W start end_ fuel :
  closed g -> no_overflow W g ->
  is_Some (g !! start) -> is_Some (g !! end_) ->
  (enough_fuel g <= fuel)%nat ->
  exists d, search_distance fuel g start end_ = Some d /\
    (((start = end_ \/ d = INT_MAX) /\
      findShortestPath fuel g start end_ = Some (g, [])) \/
     (start <> end_ /\ 0 <= d < INT_MAX /\
      exists path,
        path <> [] /\
        findShortestPath fuel g start end_ = Some (g, path) /\
        calculatePathDistance g path = (g, d) /\
        route_from_to g start end_ path d)).
Proof.
  intros Hclosed Hno Hstart Hend Hfuel.
  destruct (search_ends g W start fuel Hclosed Hno Hstart Hfuel)
    as (st & order & m & Hrun & Hinv & Hset & Hdone).
  destruct Hno as (Hweights & HW & Hbound).
  pose proof (proj2 (inv_dom Hinv end_) Hend) as [d Hd].
  exists d. unfold search_distance, findShortestPath. rewrite Hrun.
  split; [done|].
  assert (count (init_distances g) start = true) as ->.
  { apply count_true. rewrite init_distances_lookup.
    destruct Hstart as [? ->]. by eexists. }
  assert (count (distances st) end_ = true) as ->
    by (apply count_true; by exists d).
  rewrite (index_present _ _ _ _ Hd), (inv_graph Hinv).
  cbn [negb orb snd].
  case_bool_decide as Hfin; [left; split; [by right|done]|].
  destruct (decide (start = end_)) as [<-|Hne].
  { left. split; [by left|].
    assert (walk_back fuel (predecessors st) start start [] = Some []) as ->; [|done].
    destruct fuel; simpl; by rewrite (proj2 (count_false _ _) (inv_start_pred Hinv)). }
  destruct (inv_bound Hinv _ _ Hd) as [?|Hb]; [done|].
  pose proof (inv_order_length _ _ _ _ _ _ Hinv) as Hlen.
  right. split; [done|]. split; [unfold INT_MAX in *; nia|].
  pose proof (final_visited g start W order m st Hinv Hdone _ _ Hd Hfin) as Hv.
  apply (inv_order Hinv), list_elem_of_split in Hv as (l1 & l2 & Ho).
  destruct (final_walk_back g start W HW Hbound
              order m st Hinv fuel l1 end_ l2 [] Ho)
    as (chain & d' & Hwalk & Hd' & Hroute).
  { done. }
  { rewrite Ho, length_app in Hlen. simpl in Hlen.
    unfold enough_fuel in Hfuel. lia. }
  assert (d' = d) as -> by congruence.
  rewrite Hwalk. cbn [app].
  set (path := rev (end_ :: chain)) in *.
  destruct Hroute as (Hhead & Hlast & Hweight).
  destruct path as [|front path'] eqn:Hpath; [done|].
  injection Hhead as ->.
  rewrite bool_decide_true by done.
  exists (start :: path'). split; [done|]. split; [done|].
  split; [|done].
  unfold calculatePathDistance.
  destruct path' as [|b rest]; [simpl in Hlast; congruence|].
  cbn [length Nat.ltb Nat.leb].
  rewrite (sum_edges_weight g W Hclosed Hweights _ _ 0 Hweight); [done|lia|].
  unfold INT_MAX in *. nia.
Qed.

Lemma rev_reverse {A : Type} (l : list A) : rev l = reverse l.
Proof. apply rev_alt. Qed.

Lemma undirected_edge_weight g :
  undirected g -> forall a b, edge_weight g a b = edge_weight g b a.
Proof.
  intros Hu.
  assert (forall a b w, edge_weight g a b = Some w -> edge_weight g b a = Some w)
    as Hdir.
  { intros a b w (adj & Ha & Hb)%edge_weight_Some. exact (Hu _ _ Ha _ _ Hb). }
  intros a b.
  destruct (edge_weight g a b) as [w|] eqn:Hab; [symmetry; by apply Hdir|].
  destruct (edge_weight g b a) as [w|] eqn:Hba; [|done].
  apply Hdir in Hba. congruence.
Qed.

(** In an undirected graph a route can be taken backwards. *)
Lemma route_reverse g a b path t :
  (forall x y, edge_weight g x y = edge_weight g y x) ->
  route_from_to g a b path t -> route_from_to g b a (rev path) t.
Proof.
  intros Hsym (Hhead & Hlast & Hweight). repeat split.
  - by rewrite rev_reverse, head_reverse.
  - by rewrite rev_reverse, last_reverse.
  - clear Hhead Hlast. revert t Hweight.
    induction path as [|x path IH]; intros t; [done|].
    destruct path as [|y rest]; [done|].
    rewrite path_weight_step.
    destruct (edge_weight g x y) as [w|] eqn:Hw; [|done].
    destruct (path_weight g (y :: rest)) as [t'|]; [|done].
    intros [= <-].
    change (rev (x :: y :: rest)) with (rev (y :: rest) ++ [x]).
    rewrite (path_weight_snoc g _ y x t' w); [f_equal; lia| |by apply IH|].
    + by rewrite rev_reverse, last_reverse.
    + by rewrite Hsym.
Qed.

(** The recorded distance is a lower bound of every route. *)
Lemma search_distance_least g W start v fuel path t :
  closed g -> no_overflow W g -> (enough_fuel g <= fuel)%nat ->
  is_Some (g !! start) ->
  route_from_to g start v path t ->
  exists d, search_distance fuel g start v = Some d /\ d <= t /\ d <> INT_MAX.
Proof.
  intros Hclosed Hno Hfuel Hstart Hroute.
  destruct (search_ends g W start fuel Hclosed Hno Hstart Hfuel)
    as (st & order & m & Hrun & Hinv & Hset & Hdone).
  destruct Hno as (Hweights & HW & Hbound).
  unfold search_distance. rewrite Hrun.
  destruct (final_lower g start W Hclosed Hweights HW Hbound order m st
              Hinv Hset Hdone path start v t 0 Hroute)
    as (d & Hd & Hle & Hfin).
  - apply Hinv.
  - done.
  - exists d. repeat split; [done|lia|done].
Qed.

(** A finite recorded distance is the weight of some route. *)
Lemma search_distance_route g W start v fuel d :
  closed g -> no_overflow W g -> (enough_fuel g <= fuel)%nat ->
  is_Some (g !! start) ->
  search_distance fuel g start v = Some d -> d <> INT_MAX ->
  exists path, route_from_to g start v path d.
Proof.
  intros Hclosed Hno Hfuel Hstart Hdist Hfin.
  destruct (search_ends g W start fuel Hclosed Hno Hstart Hfuel)
    as (st & order & m & Hrun & Hinv & Hset & Hdone).
  destruct Hno as (Hweights & HW & Hbound).
  unfold search_distance in Hdist. rewrite Hrun in Hdist.
  by eapply (final_route g start W HW Hbound order m st).
Qed.

(** With a location that is not known the query returns the empty path. *)
Lemma findShortestPath_unknown g W start end_ fuel :
  closed g -> no_overflow W g -> (enough_fuel g <= fuel)%nat ->
  g !! start = None \/ g !! end_ = None ->
  findShortestPath fuel g start end_ = Some (g, []).
Proof.
  intros Hclosed Hno Hfuel Hunknown.
  destruct (g !! start) as [adj|] eqn:Hstart; cycle 1.
  { unfold findShortestPath.
    assert (count (init_distances g) start = false) as ->; [|done].
    apply count_false. by rewrite init_distances_lookup, Hstart. }
  destruct Hunknown as [?|Hend]; [done|].
  assert (is_Some (g !! start)) as Hs by (by exists adj).
  destruct (search_ends g W start fuel Hclosed Hno Hs Hfuel)
    as (st & order & m & Hrun & Hinv & _).
  unfold findShortestPath. rewrite Hrun.
  assert (count (init_distances g) start = true) as ->.
  { apply count_true. rewrite init_distances_lookup, Hstart. by eexists. }
  assert (count (distances st) end_ = false) as ->.
  { apply count_false, eq_None_not_Some.
    rewrite (inv_dom Hinv), Hend. by intros [? ?]. }
  cbn [negb orb]. by rewrite (inv_graph Hinv).
Qed.

(** On such a graph the query always returns. *)
Lemma findShortestPath_returns g W start end_ fuel :
  closed g -> no_overflow W g -> (enough_fuel g <= fuel)%nat ->
  exists path, findShortestPath fuel g start end_ = Some (g, path).
Proof.
  intros Hclosed Hno Hfuel.
  destruct (g !! start) as [adj|] eqn:Hstart; cycle 1.
  { exists []. apply (findShortestPath_unknown g W); auto. }
  destruct (g !! end_) as [adj'|] eqn:Hend; cycle 1.
  { exists []. apply (findShortestPath_unknown g W); auto. }
  assert (is_Some (g !! start)) as Hs by (by exists adj).
  assert (is_Some (g !! end_)) as He by (by exists adj').
  destruct (findShortestPath_spec g W start end_ fuel Hclosed Hno Hs He Hfuel)
    as (d & _ & [[_ Hempty]|(_ & _ & path & _ & Hfind & _)]); eauto.
Qed.

(** The distance computed for the returned path is never the [INT_MAX]
    that stands for a broken path. *)
Lemma reported_distance_finite g W start end_ fuel :
  closed g -> no_overflow W g -> (enough_fuel g <= fuel)%nat ->
  exists path d,
    findShortestPath fuel g start end_ = Some (g, path) /\
    calculatePathDistance g path = (g, d) /\ 0 <= d < INT_MAX.
Proof.
  intros Hclosed Hno Hfuel.
  assert (forall a b, findShortestPath fuel g a b = Some (g, []) ->
            exists path d,
              findShortestPath fuel g a b = Some (g, path) /\
              calculatePathDistance g path = (g, d) /\ 0 <= d < INT_MAX)
    as Hempty.
  { intros a b Hf. exists [], 0. split; [done|]. split; [done|].
    unfold INT_MAX. lia. }
  destruct (g !! start) as [adj|] eqn:Hstart; cycle 1.
  { apply Hempty, (findShortestPath_unknown g W); auto. }
  destruct (g !! end_) as [adj'|] eqn:Hend; cycle 1.
  { apply Hempty, (findShortestPath_unknown g W); auto. }
  assert (is_Some (g !! start)) as Hs by (by exists adj).
  assert (is_Some (g !! end_)) as He by (by exists adj').
  destruct (findShortestPath_spec g W start end_ fuel Hclosed Hno Hs He Hfuel)
    as (d & _ & [[_ Hf]|(_ & Hd & path & _ & Hfind & Hcalc & _)]).
  - by apply Hempty.
  - by exists path, d.
Qed.

(** From a location to itself the query returns the empty path. *)
Lemma findShortestPath_same g W a fuel :
  closed g -> no_overflow W g -> (enough_fuel g <= fuel)%nat ->
  findShortestPath fuel g a a = Some (g, []).
Proof.
  intros Hclosed Hno Hfuel.
  destruct (g !! a) as [adj|] eqn:Ha; cycle 1.
  { apply (findShortestPath_unknown g W); auto. }
  assert (is_Some (g !! a)) as Hs by (by exists adj).
  destruct (findShortestPath_spec g W a a fuel Hclosed Hno Hs Hs Hfuel)
    as (d & _ & [[_ Hempty]|(Hne & _)]); done.
Qed.

(** C2, for weights that are non-negative and small enough that no sum
    overflows: [findShortestPath] returns a path, and when that path is
    not empty [calculatePathDistance] of it is the distance the search
    recorded for [end_], which is the least total weight of a route from
    [start] to [end_]. *)
Theorem reported_path_distance g W start end_ fuel :
  closed g -> no_overflow W g -> (enough_fuel g <= fuel)%nat ->
  exists path,
    findShortestPath fuel g start end_ = Some (g, path) /\
    (path <> [] ->
     exists d,
       search_distance fuel g start end_ = Some d /\
       calculatePathDistance g path = (g, d) /\
       route_from_to g start end_ path d /\
       forall p t, route_from_to g start end_ p t -> d <= t).
Proof.
  intros Hclosed Hno Hfuel.
  destruct (g !! start) as [adj|] eqn:Hstart; cycle 1.
  { exists []. split; [|done].
    apply (findShortestPath_unknown g W); auto. }
  destruct (g !! end_) as [adj'|] eqn:Hend; cycle 1.
  { exists []. split; [|done].
    apply (findShortestPath_unknown g W); auto. }
  assert (is_Some (g !! start)) as Hs by (by exists adj).
  assert (is_Some (g !! end_)) as He by (by exists adj').
  destruct (findShortestPath_spec g W start end_ fuel Hclosed Hno Hs He Hfuel)
    as (d & Hd & [[_ Hempty]|(Hne & Hfin & path & Hpath & Hfind & Hcalc & Hroute)]).
  - exists []. by split.
  - exists path. split; [done|]. intros _. exists d.
    repeat split; try done; try apply Hroute.
    intros p t Hp.
    destruct (search_distance_least g W start end_ fuel p t Hclosed Hno Hfuel Hs Hp)
      as (d' & Hd' & Hle & _).
    assert (d' = d) as -> by congruence. done.
Qed.

(** C7, for an undirected graph whose weights are non-negative and
    small enough that no sum overflows: the distance the search
    records from [a] to [b] is the one it records from [b] to [a], and the
    distances the program reports for the two directions agree. *)
Theorem distance_symmetric g W a b fuel :
  closed g -> undirected g -> no_overflow W g ->
  is_Some (g !! a) -> is_Some (g !! b) ->
  (enough_fuel g <= fuel)%nat ->
  (exists d, search_distance fuel g a b = Some d /\
             search_distance fuel g b a = Some d) /\
  (exists d, reported_distance fuel g a b = Some d /\
             reported_distance fuel g b a = Some d).
Proof.
  intros Hclosed Hund Hno Ha Hb Hfuel.
  pose proof (undirected_edge_weight g Hund) as Hsym.
  destruct (findShortestPath_spec g W a b fuel Hclosed Hno Ha Hb Hfuel)
    as (dab & Hdab & Hab).
  destruct (findShortestPath_spec g W b a fuel Hclosed Hno Hb Ha Hfuel)
    as (dba & Hdba & Hba).
  assert (forall x y dxy dyx,
            is_Some (g !! x) -> is_Some (g !! y) ->
            search_distance fuel g x y = Some dxy ->
            search_distance fuel g y x = Some dyx ->
            dxy <> INT_MAX -> dyx <= dxy /\ dyx <> INT_MAX) as Hhalf.
  { intros x y dxy dyx Hx Hy Hxy Hyx Hfin.
    destruct (search_distance_route g W x y fuel dxy Hclosed Hno Hfuel Hx Hxy Hfin)
      as (path & Hroute).
    apply (route_reverse g x y path dxy Hsym) in Hroute.
    destruct (search_distance_least g W y x fuel _ _ Hclosed Hno Hfuel Hy Hroute)
      as (d & Hd & Hle & Hdfin).
    assert (d = dyx) as -> by congruence. done. }
  assert (dab = dba) as <-.
  { destruct (decide (dab = INT_MAX)) as [Hmax|Hfin].
    - destruct (decide (dba = INT_MAX)) as [?|Hfin']; [congruence|].
      destruct (Hhalf b a dba dab Hb Ha Hdba Hdab Hfin') as [_ ?]. done.
    - destruct (Hhalf a b dab dba Ha Hb Hdab Hdba Hfin) as [Hle Hfin'].
      destruct (Hhalf b a dba dab Hb Ha Hdba Hdab Hfin') as [Hle' _]. lia. }
  split; [by exists dab|].
  unfold reported_distance.
  destruct Hab as [[Hc ->]|(Hne & Hfin & p & _ & -> & -> & _)];
    destruct Hba as [[Hc' ->]|(Hne' & Hfin' & p' & _ & -> & -> & _)];
    simpl; try (by eexists).
  - destruct Hc as [?|?]; [congruence|lia].
  - destruct Hc' as [?|?]; [congruence|lia].
Qed.

(** ** Order ids *)

Lemma wrap_in_int z : in_int (wrap z).
Proof.
  unfold in_int, wrap, INT_MIN, INT_MAX.
  pose proof (Z.mod_pos_bound (z + 2147483648) 4294967296). lia.
Qed.

Lemma wrap_add_l a b : wrap (wrap a + b) = wrap (a + b).
Proof.
  unfold wrap.
  replace ((a + 2147483648) mod 4294967296 - 2147483648 + b + 2147483648)
    with ((a + 2147483648) mod 4294967296 + b) by lia.
  rewrite Zplus_mod_idemp_l. f_equal. f_equal. lia.
Qed.

(** What one command does to the counter, and the id it gives out. *)
Lemma exec_next_id fuel s c s' m :
  exec fuel s c = Some (s', m) ->
  match placed_id m with
  | Some i => i = nextOrderId s /\ nextOrderId s' = int_add (nextOrderId s) 1
  | None => nextOrderId s' = nextOrderId s
  end.
Proof.
  destruct c; cbn [exec]; try exec_pair.
  - unfold addLocation. destruct (negb _); [|done].
    by destruct (index ∅ (deliveryGraph s) name).
  - unfold addRoute. by destruct (_ && _).
  - unfold placeOrder. destruct (_ && _); [|done].
    by destruct (index _ (allOrders s) _).
  - unfold processNextOrder. by destruct (incomingOrders s).
  - unfold trackLastDelivery. by destruct (completedOrders s).
  - unfold listPendingOrders. by destruct (incomingOrders s).
  - intros Ho. pose proof (optimizeDeliveryRoute_state _ _ _ _ _ Ho) as ->.
    revert Ho. unfold optimizeDeliveryRoute.
    repeat case_match; intros Heq; simplify_eq; done.
  - unfold revertLastDelivery. by destruct (completedOrders s).
  - by intros [= <- <-].
Qed.

Lemma exec_next_in_int fuel s c s' m :
  exec fuel s c = Some (s', m) -> in_int (nextOrderId s) -> in_int (nextOrderId s').
Proof.
  intros He Hin. apply exec_next_id in He.
  destruct (placed_id m); [|by rewrite He].
  destruct He as [_ ->]. apply wrap_in_int.
Qed.

Lemma run_placed_ids fuel cs s s' ms :
  run fuel s cs = Some (s', ms) ->
  in_int (nextOrderId s) ->
  nextOrderId s + Z.of_nat (length (placed_ids ms)) <= INT_MAX + 1 ->
  placed_ids ms = seqZ (nextOrderId s) (Z.of_nat (length (placed_ids ms))).
Proof.
  revert s s' ms. induction cs as [|c cs IH]; intros s s' ms; simpl.
  { by intros [= <- <-] _ _. }
  destruct (exec fuel s c) as [[s1 m]|] eqn:He; [|done].
  destruct (run fuel s1 cs) as [[s2 ms']|] eqn:Hrun; [|done].
  intros [= <- <-] Hin.
  pose proof (exec_next_in_int _ _ _ _ _ He Hin) as Hin1.
  apply exec_next_id in He.
  unfold placed_ids in *. cbn [omap list_omap].
  destruct (placed_id m) as [i|].
  - destruct He as [-> Hnext]. cbn [length]. intros Hb.
    rewrite seqZ_cons by lia. f_equal.
    replace (Z.pred (Z.of_nat (S (length (omap placed_id ms')))))
      with (Z.of_nat (length (omap placed_id ms'))) by lia.
    destruct (omap placed_id ms') as [|j js] eqn:Hids; [done|].
    assert (nextOrderId s1 = Z.succ (nextOrderId s)) as Hs1.
    { rewrite Hnext. unfold int_add. rewrite wrap_small; [lia|].
      destruct Hin. cbn [length] in Hb. lia. }
    rewrite <- Hs1, <- Hids. apply (IH _ _ _ Hrun Hin1).
    rewrite Hs1, Hids. cbn [length] in *. lia.
  - rewrite <- He. by apply (IH _ _ _ Hrun).
Qed.

(** C5, within the range of [int]: in a session from the fresh system
    that places at most 2147482647 orders, the ids given out are 1001,
    1002, ... in the order of the placements, whatever else is processed
    or reverted in between; they increase strictly, so none is given out
    twice. *)
Theorem order_ids_increase fuel cs s ms :
  run fuel fresh cs = Some (s, ms) ->
  Z.of_nat (length (placed_ids ms)) <= 2147482647 ->
  placed_ids ms = seqZ 1001 (Z.of_nat (length (placed_ids ms))) /\
  forall i j a b,
    placed_ids ms !! i = Some a -> placed_ids ms !! j = Some b ->
    (i < j)%nat -> a < b.
Proof.
  intros Hrun Hb.
  assert (placed_ids ms = seqZ 1001 (Z.of_nat (length (placed_ids ms)))) as Hids.
  { apply (run_placed_ids _ _ _ _ _ Hrun); simpl.
    - unfold in_int, INT_MIN, INT_MAX. lia.
    - unfold INT_MAX. lia. }
  split; [done|].
  intros i j a b. rewrite Hids.
  intros [-> _]%lookup_seqZ [-> _]%lookup_seqZ Hij. lia.
Qed.

Lemma order_ids_increase_witness :
  let cs := [AddLocation "Depot"; AddLocation "A";
             PlaceOrder "Depot" "A" (S754_zero false); ProcessNext;
             PlaceOrder "A" "Nowhere" (S754_zero false); RevertLast;
             PlaceOrder "A" "Depot" (S754_zero false); ProcessNext] in
  exists s ms,
    run O fresh cs = Some (s, ms) /\
    placed_ids ms = [1001; 1002] /\
    Z.of_nat (length (placed_ids ms)) <= 2147482647 /\
    placed_ids ms = seqZ 1001 (Z.of_nat (length (placed_ids ms))).
Proof.
  intros cs.
  assert (is_Some (run O fresh cs)) as [[s ms] Hrun].
  { apply is_Some_true. vm_compute. reflexivity. }
  exists s, ms.
  assert (placed_ids ms = [1001; 1002]) as Hids.
  { assert (placed_ids <$> (snd <$> run O fresh cs) = Some [1001; 1002]) as Hc
      by (vm_compute; reflexivity).
    rewrite Hrun in Hc. by injection Hc. }
  assert (Z.of_nat (length (placed_ids ms)) <= 2147482647) as Hb.
  { rewrite Hids. simpl. lia. }
  split; [exact Hrun|]. split; [exact Hids|]. split; [exact Hb|].
  exact (proj1 (order_ids_increase O cs s ms Hrun Hb)).
Defined.

(** The counter wraps around after it has given out [INT_MAX]. *)
Lemma wrapped_ids_length next n : length (wrapped_ids next n) = n.
Proof.
  revert next. induction n as [|n IH]; intros next; simpl; [done|].
  by rewrite IH.
Qed.

Lemma wrapped_ids_last next n :
  in_int next -> last (wrapped_ids next (S n)) = Some (wrap (next + Z.of_nat n)).
Proof.
  revert next. induction n as [|n IH]; intros next Hin.
  - simpl. f_equal. rewrite Z.add_0_r. symmetry. by apply wrap_small.
  - change (wrapped_ids next (S (S n)))
      with (next :: wrapped_ids (int_add next 1) (S n)).
    destruct (wrapped_ids (int_add next 1) (S n)) as [|x l] eqn:Hw.
    { apply (f_equal length) in Hw. by rewrite wrapped_ids_length in Hw. }
    rewrite last_cons_cons, <- Hw, IH by apply wrap_in_int.
    f_equal. unfold int_add. rewrite wrap_add_l. f_equal. lia.
Qed.

Lemma run_cons fuel s c cs s1 m s2 ms :
  exec fuel s c = Some (s1, m) -> run fuel s1 cs = Some (s2, ms) ->
  run fuel s (c :: cs) = Some (s2, m :: ms).
Proof. intros He Hr. simpl. by rewrite He, Hr. Qed.

Lemma run_place_many fuel n restaurant destination price s :
  count (deliveryGraph s) restaurant = true ->
  count (deliveryGraph s) destination = true ->
  exists s' ms,
    run fuel s (place_many n restaurant destination price) = Some (s', ms) /\
    placed_ids ms = wrapped_ids (nextOrderId s) n.
Proof.
  revert s. induction n as [|n IH]; intros s Hr Hd.
  - by exists s, [].
  - destruct (IH (placeOrder s restaurant destination price).1)
      as (s' & ms & Hrun & Hids).
    + unfold placeOrder. rewrite Hr, Hd. cbn [andb].
      by destruct (index _ (allOrders s) _).
    + unfold placeOrder. rewrite Hr, Hd. cbn [andb].
      by destruct (index _ (allOrders s) _).
    + exists s', ((placeOrder s restaurant destination price).2 :: ms). split.
      * apply (run_cons _ _ _ _ (placeOrder s restaurant destination price).1);
          [|done].
        cbn [exec]. by destruct (placeOrder s restaurant destination price).
      * revert Hids. unfold placeOrder. rewrite Hr, Hd. cbn [andb].
        destruct (index _ (allOrders s) _) as [all1 x]. cbn [fst snd].
        unfold placed_ids. cbn [omap list_omap placed_id nextOrderId id].
        by intros ->.
Qed.

Lemma order_ids_wrap n :
  exists s ms,
    run O fresh
      (AddLocation "Depot"
         :: place_many (S n) "Depot" "Depot" (S754_zero false)) = Some (s, ms) /\
    length (placed_ids ms) = S n /\
    last (placed_ids ms) = Some (wrap (1001 + Z.of_nat n)).
Proof.
  destruct (run_place_many O (S n) "Depot" "Depot" (S754_zero false)
              (addLocation fresh "Depot").1) as (s & ms & Hrun & Hids);
    [done|done|].
  exists s, (LocationAdded "Depot" :: ms). split.
  { by apply (run_cons _ _ _ _ (addLocation fresh "Depot").1). }
  change (placed_ids (LocationAdded "Depot" :: ms)) with (placed_ids ms).
  rewrite Hids. split; [apply wrapped_ids_length|].
  apply wrapped_ids_last. unfold in_int, INT_MIN, INT_MAX. simpl. lia.
Qed.

(** C5 does not hold once the counter has passed [INT_MAX]: the
    session that registers the depot and places 2147482648 orders gives
    the last of them the id [INT_MIN]. *)
Lemma order_ids_counterexample :
  exists s ms,
    run O fresh
      (AddLocation "Depot"
         :: place_many (S (Z.to_nat 2147482647)) "Depot" "Depot"
              (S754_zero false)) = Some (s, ms) /\
    Z.of_nat (length (placed_ids ms)) = 2147482648 /\
    last (placed_ids ms) = Some (-2147483648).
Proof.
  destruct (order_ids_wrap (Z.to_nat 2147482647)) as (s & ms & Hrun & Hlen & Hlast).
  exists s, ms. split; [exact Hrun|]. split.
  - rewrite Hlen. lia.
  - rewrite Hlast, Z2Nat.id by lia. reflexivity.
Qed.

(** ** Reachable graphs *)

Lemma exec_location_kept fuel s c s' m x :
  exec fuel s c = Some (s', m) ->
  is_Some (deliveryGraph s !! x) -> is_Some (deliveryGraph s' !! x).
Proof.
  destruct c; cbn [exec]; try exec_pair.
  - unfold addLocation. destruct (negb _) eqn:Hc; [|done].
    destruct (index ∅ (deliveryGraph s) name) as [g1 ?] eqn:Hi. simpl.
    intros Hx. rewrite lookup_insert_is_Some.
    destruct (decide (name = x)); [by left|right]. split; [done|].
    unfold index in Hi. destruct (deliveryGraph s !! name); simplify_eq; [done|].
    by rewrite lookup_insert_ne.
  - unfold addRoute. destruct (count _ start) eqn:Hs; [|done].
    destruct (count _ end_) eqn:He; [|done]. simpl. intros Hx.
    apply count_true in Hs, He.
    apply set_edge_lookup_is_Some; [by apply set_edge_lookup_is_Some|].
    by apply set_edge_lookup_is_Some.
  - unfold placeOrder. destruct (_ && _); [|done].
    by destruct (index _ (allOrders s) _).
  - unfold processNextOrder. by destruct (incomingOrders s).
  - unfold trackLastDelivery. by destruct (completedOrders s).
  - unfold listPendingOrders. by destruct (incomingOrders s).
  - intros Ho. by rewrite (optimizeDeliveryRoute_state _ _ _ _ _ Ho).
  - unfold revertLastDelivery. by destruct (completedOrders s).
  - by intros [= <- _].
Qed.

Lemma closed_edge_weight g :
  closed g <-> forall a b w, edge_weight g a b = Some w -> is_Some (g !! b).
Proof.
  split.
  - intros Hc a b w (adj & Ha & Hb)%edge_weight_Some. exact (Hc _ _ Ha _ _ Hb).
  - intros Hc a adj Ha b w Hb. apply (Hc a b w), edge_weight_Some. by exists adj.
Qed.

Lemma undirected_symmetric g :
  undirected g <-> forall a b, edge_weight g a b = edge_weight g b a.
Proof.
  split; [apply undirected_edge_weight|].
  intros Hsym a adj Ha b w Hb. rewrite <- Hsym.
  apply edge_weight_Some. by exists adj.
Qed.

(** In every reachable state the graph is closed and undirected. *)
Lemma reachable_graph s :
  reachable s -> closed (deliveryGraph s) /\ undirected (deliveryGraph s).
Proof.
  intros Hr. split.
  - apply closed_edge_weight.
    induction Hr as [|fuel s c s' m _ IH He]; [done|].
    intros a b w. rewrite (exec_edge_weight _ _ _ _ _ _ _ He).
    pose proof (exec_location_kept _ _ _ _ _ b He) as Hkept.
    destruct c; try (intros Hw; by apply Hkept, (IH a b w)).
    destruct (count _ start) eqn:Hs; [|intros Hw; by apply Hkept, (IH a b w)].
    destruct (count _ end_) eqn:Hend; [|intros Hw; by apply Hkept, (IH a b w)].
    cbn [andb]. apply count_true in Hs, Hend.
    destruct (decide _) as [[[_ ->]|[_ ->]]|_]; intros Hw; apply Hkept; try done.
    by apply (IH a b w).
  - apply undirected_symmetric.
    induction Hr as [|fuel s c s' m _ IH He]; [done|].
    by eapply graph_symmetric_step.
Qed.

(** ** Stored weights *)

Lemma run_stored_weights fuel cs s s' ms a b w :
  run fuel s cs = Some (s', ms) ->
  edge_weight (deliveryGraph s') a b = Some w ->
  edge_weight (deliveryGraph s) a b = Some w \/ Some w ∈ route_distance <$> cs.
Proof.
  revert s s' ms. induction cs as [|c cs IH]; intros s s' ms; simpl.
  { intros [= <- _] Hw. by left. }
  destruct (exec fuel s c) as [[s1 m]|] eqn:He; [|done].
  destruct (run fuel s1 cs) as [[s2 ms']|] eqn:Hrun; [|done].
  intros [= <- _] Hw.
  destruct (IH _ _ _ Hrun Hw) as [Hw1|Hin];
    [|right; by apply list_elem_of_further].
  rewrite (exec_edge_weight _ _ _ _ _ _ _ He) in Hw1.
  destruct c; try by left.
  destruct (_ && _); [|by left].
  destruct (decide _); [|by left].
  right. injection Hw1 as ->. apply list_elem_of_here.
Qed.

(** C9, as the code has it: [addRoute] stores the distance it is given, whatever
    its sign: every weight in the graph is a distance that an [addRoute]
    of the session was called with, so the weights are non-negative when
    those distances are. *)
Theorem stored_weights_given fuel cs s ms :
  run fuel fresh cs = Some (s, ms) ->
  (forall a b w, edge_weight (deliveryGraph s) a b = Some w ->
                 Some w ∈ route_distance <$> cs) /\
  ((forall d, Some d ∈ route_distance <$> cs -> 0 <= d) ->
   stored_weights (deliveryGraph s) (fun w => 0 <= w)).
Proof.
  intros Hrun.
  assert (forall a b w, edge_weight (deliveryGraph s) a b = Some w ->
                        Some w ∈ route_distance <$> cs) as Hgiven.
  { intros a b w Hw.
    by destruct (run_stored_weights _ _ _ _ _ _ _ _ Hrun Hw) as [?|?]. }
  split; [done|].
  intros Hpos a b w Hw. by apply Hpos, (Hgiven a b).
Qed.

Lemma stored_weights_given_witness :
  exists s ms,
    run O fresh depot_a_b = Some (s, ms) /\
    (forall a b w, edge_weight (deliveryGraph s) a b = Some w ->
                   Some w ∈ route_distance <$> depot_a_b).
Proof.
  assert (is_Some (run O fresh depot_a_b)) as [[s ms] Hrun].
  { apply is_Some_true. vm_compute. reflexivity. }
  exists s, ms. split; [exact Hrun|].
  exact (proj1 (stored_weights_given O depot_a_b s ms Hrun)).
Defined.

(** C9 does not hold for every session: [addRoute] accepts a negative distance and
    stores it. *)
Lemma stored_weights_counterexample :
  reachable (state_after negative_loop) /\
  edge_weight (deliveryGraph (state_after negative_loop)) "B" "C" = Some (-1).
Proof.
  split; [apply state_after_reachable|]. vm_compute. reflexivity.
Qed.

(** ** Shortest paths on example graphs *)

Lemma reported_path_distance_witness :
  let g := deliveryGraph (state_after depot_a_b) in
  closed g /\ no_overflow 5 g /\ (enough_fuel g <= 12)%nat /\
  exists path,
    findShortestPath 12 g "Depot" "B" = Some (g, path) /\
    (path <> [] ->
     exists d,
       search_distance 12 g "Depot" "B" = Some d /\
       calculatePathDistance g path = (g, d) /\
       route_from_to g "Depot" "B" path d /\
       forall p t, route_from_to g "Depot" "B" p t -> d <= t).
Proof.
  intros g.
  assert (closed g) as Hclosed by (unfold closed; compute_done).
  assert (no_overflow 5 g) as Hno
    by (unfold no_overflow, weights_within; compute_done).
  assert (enough_fuel g <= 12)%nat as Hfuel by (vm_compute; lia).
  split; [exact Hclosed|]. split; [exact Hno|]. split; [exact Hfuel|].
  exact (reported_path_distance g 5 "Depot" "B" 12 Hclosed Hno Hfuel).
Defined.

(** On the example graph the path from the depot to B goes through A and
    its distance is 8, in both directions. *)
Example shortest_path_depot_b :
  let g := deliveryGraph (state_after depot_a_b) in
  snd <$> findShortestPath 12 g "Depot" "B" = Some ["Depot"; "A"; "B"]%string /\
  search_distance 12 g "Depot" "B" = Some 8 /\
  reported_distance 12 g "Depot" "B" = Some 8 /\
  reported_distance 12 g "B" "Depot" = Some 8.
Proof. vm_compute. done. Qed.

(** C2 does not hold on a graph with a negative weight: with the routes
    B-B and B-C of distance -1, the path returned from B to C has total
    weight -1 while the search has recorded -2 for C, which is the weight
    of the route B, B, C. *)
Lemma reported_path_distance_counterexample :
  let g := deliveryGraph (state_after negative_loop) in
  reachable (state_after negative_loop) /\
  snd <$> findShortestPath 11 g "B" "C" = Some ["B"; "C"]%string /\
  (calculatePathDistance g ["B"; "C"]%string).2 = -1 /\
  search_distance 11 g "B" "C" = Some (-2) /\
  route_from_to g "B" "C" ["B"; "B"; "C"]%string (-2).
Proof.
  split; [apply state_after_reachable|]. vm_compute. done.
Qed.

Lemma distance_symmetric_witness :
  let g := deliveryGraph (state_after depot_a_b) in
  closed g /\ undirected g /\ no_overflow 5 g /\
  is_Some (g !! "Depot"%string) /\ is_Some (g !! "B"%string) /\
  (enough_fuel g <= 12)%nat /\
  (exists d, search_distance 12 g "Depot" "B" = Some d /\
             search_distance 12 g "B" "Depot" = Some d) /\
  (exists d, reported_distance 12 g "Depot" "B" = Some d /\
             reported_distance 12 g "B" "Depot" = Some d).
Proof.
  intros g.
  assert (closed g) as Hclosed by (unfold closed; compute_done).
  assert (undirected g) as Hund by (unfold undirected; compute_done).
  assert (no_overflow 5 g) as Hno
    by (unfold no_overflow, weights_within; compute_done).
  assert (is_Some (g !! "Depot"%string)) as Ha
    by (apply count_true; vm_compute; reflexivity).
  assert (is_Some (g !! "B"%string)) as Hb
    by (apply count_true; vm_compute; reflexivity).
  assert (enough_fuel g <= 12)%nat as Hfuel by (vm_compute; lia).
  split; [exact Hclosed|]. split; [exact Hund|]. split; [exact Hno|].
  split; [exact Ha|]. split; [exact Hb|]. split; [exact Hfuel|].
  exact (distance_symmetric g 5 "Depot" "B" 12 Hclosed Hund Hno Ha Hb Hfuel).
Defined.

(** Two locations that are each other's predecessor are walked for ever. *)
Lemma walk_back_cycle preds start fuel :
  forall x y acc,
    preds !! x = Some y -> preds !! y = Some x ->
    x <> start -> y <> start ->
    walk_back fuel preds start x acc = None.
Proof.
  induction fuel as [|fuel IH]; intros x y acc Hx Hy Hxs Hys; cbn [walk_back].
  - by rewrite (proj2 (count_true preds x)) by (by exists y).
  - rewrite (proj2 (count_true preds x)) by (by exists y).
    rewrite (index_present _ _ _ _ Hx).
    rewrite bool_decide_false by done.
    by apply (IH y x).
Qed.

(** The walk back from C never ends when the search ran from A on the
    routes A-C and B-C of distance -1: the predecessors of B and C point
    at each other. *)
Lemma negative_star_walk fuel :
  findShortestPath fuel (deliveryGraph (state_after negative_star)) "A" "C" = None.
Proof.
  set (g := deliveryGraph (state_after negative_star)).
  destruct (le_lt_dec 12 fuel) as [Hle|Hlt]; cycle 1.
  { do 12 (destruct fuel as [|fuel]; [vm_compute; reflexivity|]). lia. }
  assert (is_Some (run_search 12 g "A")) as [st Hst].
  { apply is_Some_true. vm_compute. reflexivity. }
  assert (run_search fuel g "A" = Some st) as Hrun.
  { unfold run_search in *. destruct (index 0 (init_distances g) "A").
    by apply (search_loop_fuel 12). }
  assert (run_search 12 g "A" ≫= (fun st => distances st !! "C"%string) = Some (-3))
    as Hd by (vm_compute; reflexivity).
  assert (run_search 12 g "A" ≫= (fun st => predecessors st !! "C"%string)
          = Some "B"%string) as HC by (vm_compute; reflexivity).
  assert (run_search 12 g "A" ≫= (fun st => predecessors st !! "B"%string)
          = Some "C"%string) as HB by (vm_compute; reflexivity).
  rewrite Hst in Hd, HC, HB. cbn [mbind option_bind] in Hd, HC, HB.
  unfold findShortestPath.
  assert (count (init_distances g) "A" = true) as -> by (by vm_compute).
  cbn [negb]. rewrite Hrun.
  rewrite (proj2 (count_true (distances st) "C")) by (by eexists).
  rewrite (index_present _ _ _ _ Hd). cbn [negb orb snd].
  rewrite bool_decide_false by done.
  by rewrite (walk_back_cycle _ _ _ "C"%string "B"%string [] HC HB).
Qed.

(** C7 does not hold on an undirected graph with negative weights: with
    the routes A-C and B-C of distance -1 the search records -3 from A to
    C and -1 from C to A; the query from C to A returns a path of
    distance -1 and the query from A to C never returns. *)
Lemma distance_symmetric_counterexample :
  let g := deliveryGraph (state_after negative_star) in
  reachable (state_after negative_star) /\
  undirected g /\
  search_distance 14 g "A" "C" = Some (-3) /\
  search_distance 14 g "C" "A" = Some (-1) /\
  reported_distance 14 g "C" "A" = Some (-1) /\
  forall fuel, reported_distance fuel g "A" "C" = None.
Proof.
  split; [apply state_after_reachable|].
  split; [unfold undirected; compute_done|].
  split; [by vm_compute|]. split; [by vm_compute|]. split; [by vm_compute|].
  intros fuel. unfold reported_distance.
  by rewrite (negative_star_walk fuel).
Qed.

(** C1: from the depot to the depot [findShortestPath] returns the empty
    path, the value it returns when there is no route, and not the path
    that holds the depot; the distance computed for it is 0. *)
Theorem same_location_path_empty :
  let g := deliveryGraph (state_after [AddLocation "Depot"]) in
  snd <$> findShortestPath 4 g "Depot" "Depot" = Some [] /\
  reported_distance 4 g "Depot" "Depot" = Some 0.
Proof. vm_compute. done. Qed.

(** ** Route optimisation on example states *)

(** With Depot-A of distance 5 and A-B of distance 3, the order from A to
    B is reported with the legs Depot, A of 5 km and A, B of 3 km, and the
    total 8 km. *)
Example optimize_two_legs :
  let s := state_after (depot_a_b ++ [PlaceOrder "A" "B" (S754_zero false)]) in
  snd <$> optimizeDeliveryRoute 12 s 1001 =
  Some (RouteReport (Some 5) ["Depot"; "A"]%string
          (Some 3) ["A"; "B"]%string (Some 8)).
Proof. vm_compute. done. Qed.

(** C8: with Depot-A of distance 5 and no route to B, the order from A to
    B gets the report "0 km" for its second leg, without a path, and the
    total 5: the leg that cannot be reached is not told apart and the
    total is a number. *)
Theorem unreachable_leg_reported_as_zero :
  let s := state_after depot_a_apart_b in
  snd <$> findShortestPath 12 (deliveryGraph s) "A" "B" = Some [] /\
  snd <$> optimizeDeliveryRoute 12 s 1001 =
  Some (RouteReport (Some 5) ["Depot"; "A"]%string (Some 0) [] (Some 5)).
Proof. vm_compute. done. Qed.

(** On a graph without negative weights and without overflow, route
    optimisation returns. *)
Lemma optimizeDeliveryRoute_returns fuel s orderId W :
  closed (deliveryGraph s) -> no_overflow W (deliveryGraph s) ->
  (enough_fuel (deliveryGraph s) <= fuel)%nat ->
  exists m, optimizeDeliveryRoute fuel s orderId = Some (s, m).
Proof.
  intros Hclosed Hno Hfuel. unfold optimizeDeliveryRoute.
  destruct (count (allOrders s) orderId) eqn:Hc; cbn [negb]; [|by eexists].
  apply count_true in Hc as [order Ho].
  rewrite (index_present _ _ _ _ Ho).
  assert ({| incomingOrders := incomingOrders s;
             completedOrders := completedOrders s;
             deliveryGraph := deliveryGraph s; allOrders := allOrders s;
             nextOrderId := nextOrderId s |} = s) as -> by (by destruct s).
  destruct (count (deliveryGraph s) "Depot"); cbn [negb]; [|by eexists].
  destruct (findShortestPath_returns (deliveryGraph s) W "Depot"
              (restaurant order) fuel Hclosed Hno Hfuel) as [path1 ->].
  pose proof (calculatePathDistance_graph (deliveryGraph s) path1) as Hg2.
  destruct (calculatePathDistance (deliveryGraph s) path1) as [g2 distance1].
  simpl in Hg2. subst g2.
  destruct (findShortestPath_returns (deliveryGraph s) W (restaurant order)
              (destination order) fuel Hclosed Hno Hfuel) as [path2 ->].
  pose proof (calculatePathDistance_graph (deliveryGraph s) path2) as Hg4.
  destruct (calculatePathDistance (deliveryGraph s) path2) as [g4 distance2].
  simpl in Hg4. subst g4.
  rewrite set_graph_id. by eexists.
Qed.

Lemma int_add_not_minus_one a b :
  0 <= a < INT_MAX -> 0 <= b < INT_MAX -> int_add a b <> -1.
Proof.
  unfold int_add, wrap, INT_MAX. intros Ha Hb.
  destruct (Z_lt_le_dec (a + b) 2147483648) as [Hlt|Hge].
  - rewrite Z.mod_small by lia. lia.
  - replace (a + b + 2147483648)
      with (a + b - 2147483648 + 1 * 4294967296) by lia.
    rewrite Z_mod_plus_full, Z.mod_small by lia. lia.
Qed.

(** For an order that is known, with the depot registered, the report
    always carries two distances and a total, never "Route not found" or
    "Cannot be calculated", also when a leg has no route. *)
Lemma optimizeDeliveryRoute_always_numeric fuel s orderId order W :
  closed (deliveryGraph s) -> no_overflow W (deliveryGraph s) ->
  (enough_fuel (deliveryGraph s) <= fuel)%nat ->
  allOrders s !! orderId = Some order ->
  is_Some (deliveryGraph s !! "Depot"%string) ->
  exists d1 p1 d2 p2 t,
    optimizeDeliveryRoute fuel s orderId =
    Some (s, RouteReport (Some d1) p1 (Some d2) p2 (Some t)).
Proof.
  intros Hclosed Hno Hfuel Ho Hdepot. unfold optimizeDeliveryRoute.
  rewrite (proj2 (count_true _ _)) by (by exists order). cbn [negb].
  rewrite (index_present _ _ _ _ Ho).
  assert ({| incomingOrders := incomingOrders s;
             completedOrders := completedOrders s;
             deliveryGraph := deliveryGraph s; allOrders := allOrders s;
             nextOrderId := nextOrderId s |} = s) as -> by (by destruct s).
  rewrite (proj2 (count_true _ _)) by done. cbn [negb].
  destruct (reported_distance_finite (deliveryGraph s) W "Depot"
              (restaurant order) fuel Hclosed Hno Hfuel)
    as (path1 & d1 & -> & -> & Hd1).
  destruct (reported_distance_finite (deliveryGraph s) W (restaurant order)
              (destination order) fuel Hclosed Hno Hfuel)
    as (path2 & d2 & -> & -> & Hd2).
  rewrite set_graph_id.
  unfold shown_distance, shown_path, shown_total, total_distance.
  rewrite !(bool_decide_true (_ <> INT_MAX)) by lia.
  rewrite !(bool_decide_false (_ = INT_MAX)) by lia. cbn [orb].
  rewrite bool_decide_true by (by apply int_add_not_minus_one).
  by eexists _, _, _, _, _.
Qed.

Lemma optimizeDeliveryRoute_pure_witness :
  let s := state_after depot_a_apart_b in
  exists s' m,
    optimizeDeliveryRoute 12 s 1001 = Some (s', m) /\
    incomingOrders s' = incomingOrders s /\
    completedOrders s' = completedOrders s /\
    deliveryGraph s' = deliveryGraph s /\
    allOrders s' = allOrders s /\
    nextOrderId s' = nextOrderId s.
Proof.
  intros s.
  assert (is_Some (optimizeDeliveryRoute 12 s 1001)) as [[s' m] Ho].
  { apply is_Some_true. vm_compute. reflexivity. }
  exists s', m. split; [exact Ho|].
  exact (optimizeDeliveryRoute_pure 12 s 1001 s' m Ho).
Defined.

(** * Further properties of the operations *)

(** ** What each command can change *)

(** X1: only [addLocation] and [addRoute] change the graph, only
    [placeOrder] changes the order index and the id counter, only
    [placeOrder], [processNextOrder] and [revertLastDelivery] change the
    queue and the stack; [trackLastDelivery], [listPendingOrders],
    [systemStatus] and [optimizeDeliveryRoute] leave the state as it is. *)
Theorem exec_frame fuel s c s' m :
  exec fuel s c = Some (s', m) ->
  match c with
  | AddLocation _ | AddRoute _ _ _ =>
    incomingOrders s' = incomingOrders s /\
    completedOrders s' = completedOrders s /\
    allOrders s' = allOrders s /\ nextOrderId s' = nextOrderId s
  | PlaceOrder _ _ _ =>
    deliveryGraph s' = deliveryGraph s /\
    completedOrders s' = completedOrders s
  | ProcessNext | RevertLast =>
    deliveryGraph s' = deliveryGraph s /\
    allOrders s' = allOrders s /\ nextOrderId s' = nextOrderId s
  | TrackLast | ListPending | OptimizeRoute _ | ShowStatus => s' = s
  end.
Proof.
  destruct c; cbn [exec]; try exec_pair.
  - unfold addLocation. destruct (negb _); [|done].
    by destruct (index ∅ (deliveryGraph s) name).
  - unfold addRoute. by destruct (_ && _).
  - unfold placeOrder. destruct (_ && _); [|done].
    by destruct (index _ (allOrders s) _).
  - unfold processNextOrder. by destruct (incomingOrders s).
  - unfold trackLastDelivery. by destruct (completedOrders s).
  - unfold listPendingOrders. by destruct (incomingOrders s).
  - apply optimizeDeliveryRoute_state.
  - unfold revertLastDelivery. by destruct (completedOrders s).
  - by intros [= <- _].
Qed.

Lemma exec_frame_witness :
  exists s' m,
    exec O (state_after depot_a_apart_b) ProcessNext = Some (s', m) /\
    deliveryGraph s' = deliveryGraph (state_after depot_a_apart_b) /\
    allOrders s' = allOrders (state_after depot_a_apart_b) /\
    nextOrderId s' = nextOrderId (state_after depot_a_apart_b).
Proof.
  assert (is_Some (exec O (state_after depot_a_apart_b) ProcessNext))
    as [[s' m] He] by (by eexists).
  exists s', m. split; [exact He|].
  exact (exec_frame O (state_after depot_a_apart_b) ProcessNext s' m He).
Defined.

(** ** Registering locations and routes *)

(** X2: after [addLocation] the name is a location, the locations are
    the earlier ones and the name, no route has changed, and a name that
    was registered before leaves the whole state as it was. *)
Theorem addLocation_registers s name :
  let s' := (addLocation s name).1 in
  (forall x, is_Some (deliveryGraph s' !! x) <->
             x = name \/ is_Some (deliveryGraph s !! x)) /\
  (forall a b, edge_weight (deliveryGraph s') a b =
               edge_weight (deliveryGraph s) a b) /\
  (addLocation s name).2 =
    (if count (deliveryGraph s) name then LocationExists name
     else LocationAdded name) /\
  (if count (deliveryGraph s) name then s' = s
   else deliveryGraph s' !! name = Some ∅).
Proof.
  intros s'. split; [|split; [apply addLocation_edge_weight|]].
  - intros x. subst s'. unfold addLocation.
    destruct (count (deliveryGraph s) name) eqn:Hc; cbn [negb fst].
    + apply count_true in Hc. split; [by right|].
      by intros [->|?].
    + apply count_false in Hc. rewrite (index_absent _ _ _ Hc). cbn [fst deliveryGraph set_graph].
      rewrite insert_insert_eq, lookup_insert_is_Some. split.
      * intros [<-|[_ ?]]; [by left|by right].
      * intros [->|Hx]; [by left|].
        destruct (decide (name = x)); [by left|by right].
  - subst s'. unfold addLocation.
    destruct (count (deliveryGraph s) name) eqn:Hc; cbn [negb fst snd]; [done|].
    apply count_false in Hc. rewrite (index_absent _ _ _ Hc).
    cbn [fst snd deliveryGraph set_graph].
    split; [done|]. apply lookup_insert_eq.
Qed.

(** X3: [addRoute] between two locations records the distance in both
    directions, leaves every other pair of locations and the set of
    locations as they were, and reports the route. *)
Theorem addRoute_records s start end_ distance :
  is_Some (deliveryGraph s !! start) -> is_Some (deliveryGraph s !! end_) ->
  let s' := (addRoute s start end_ distance).1 in
  (addRoute s start end_ distance).2 = RouteAdded start end_ distance /\
  edge_weight (deliveryGraph s') start end_ = Some distance /\
  edge_weight (deliveryGraph s') end_ start = Some distance /\
  (forall a b, ~ (a = start /\ b = end_) -> ~ (a = end_ /\ b = start) ->
     edge_weight (deliveryGraph s') a b = edge_weight (deliveryGraph s) a b) /\
  (forall x, is_Some (deliveryGraph s' !! x) <-> is_Some (deliveryGraph s !! x)).
Proof.
  intros Hs He s'.
  pose proof (proj2 (count_true _ _) Hs) as Hcs.
  pose proof (proj2 (count_true _ _) He) as Hce.
  assert (forall a b, edge_weight (deliveryGraph s') a b =
            if decide ((a = start /\ b = end_) \/ (a = end_ /\ b = start))
            then Some distance else edge_weight (deliveryGraph s) a b) as Hw.
  { intros a b. subst s'. by rewrite addRoute_edge_weight, Hcs, Hce. }
  split; [|split; [|split; [|split]]].
  - unfold addRoute. by rewrite Hcs, Hce.
  - rewrite Hw. destruct (decide _); intuition congruence.
  - rewrite Hw. destruct (decide _); intuition congruence.
  - intros a b H1 H2. rewrite Hw. destruct (decide _); intuition congruence.
  - intros x. subst s'. unfold addRoute. rewrite Hcs, Hce. cbn [andb fst deliveryGraph set_graph].
    rewrite set_edge_lookup_is_Some by (by apply set_edge_lookup_is_Some).
    by apply set_edge_lookup_is_Some.
Qed.

Lemma addRoute_records_witness :
  let s := state_after depot_a_b in
  is_Some (deliveryGraph s !! "Depot"%string) /\
  is_Some (deliveryGraph s !! "B"%string) /\
  edge_weight (deliveryGraph (addRoute s "Depot" "B" 7).1) "B" "Depot" = Some 7.
Proof.
  intros s.
  assert (is_Some (deliveryGraph s !! "Depot"%string)) as Ha
    by (apply count_true; vm_compute; reflexivity).
  assert (is_Some (deliveryGraph s !! "B"%string)) as Hb
    by (apply count_true; vm_compute; reflexivity).
  split; [exact Ha|]. split; [exact Hb|].
  exact (proj1 (proj2 (proj2 (addRoute_records s "Depot" "B" 7 Ha Hb)))).
Defined.

(** X4: a route added twice keeps the distance given last, whichever way
    round the two locations were named: every weight is as if only the
    second [addRoute] had been made. *)
Theorem addRoute_last_wins s start end_ d1 d2 :
  is_Some (deliveryGraph s !! start) -> is_Some (deliveryGraph s !! end_) ->
  let s1 := (addRoute s start end_ d1).1 in
  forall a b,
    (edge_weight (deliveryGraph (addRoute s1 start end_ d2).1) a b =
     edge_weight (deliveryGraph (addRoute s start end_ d2).1) a b) /\
    (edge_weight (deliveryGraph (addRoute s1 end_ start d2).1) a b =
     edge_weight (deliveryGraph (addRoute s start end_ d2).1) a b).
Proof.
  intros Hs He s1 a b.
  assert (count (deliveryGraph s1) start = true /\
          count (deliveryGraph s1) end_ = true) as [Hcs1 Hce1].
  { rewrite !count_true. subst s1. unfold addRoute.
    rewrite (proj2 (count_true _ _) Hs), (proj2 (count_true _ _) He).
    cbn [andb fst deliveryGraph set_graph].
    split; (apply set_edge_lookup_is_Some;
            [by apply set_edge_lookup_is_Some|by apply set_edge_lookup_is_Some]). }
  rewrite !addRoute_edge_weight, Hcs1, Hce1.
  subst s1. rewrite !addRoute_edge_weight.
  rewrite (proj2 (count_true _ _) Hs), (proj2 (count_true _ _) He).
  cbn [andb]. split; repeat destruct (decide _); intuition congruence.
Qed.

Lemma addRoute_last_wins_witness :
  let s := state_after depot_a_b in
  is_Some (deliveryGraph s !! "A"%string) /\
  is_Some (deliveryGraph s !! "B"%string) /\
  edge_weight
    (deliveryGraph (addRoute (addRoute s "A" "B" 9).1 "B" "A" 4).1) "A" "B" =
  edge_weight (deliveryGraph (addRoute s "A" "B" 4).1) "A" "B".
Proof.
  intros s.
  assert (is_Some (deliveryGraph s !! "A"%string)) as Ha
    by (apply count_true; vm_compute; reflexivity).
  assert (is_Some (deliveryGraph s !! "B"%string)) as Hb
    by (apply count_true; vm_compute; reflexivity).
  split; [exact Ha|]. split; [exact Hb|].
  exact (proj2 (addRoute_last_wins s "A" "B" 9 4 Ha Hb "A"%string "B"%string)).
Defined.

(** ** Locations are kept *)

Lemma run_app fuel s cs1 cs2 s1 ms1 s2 ms2 :
  run fuel s cs1 = Some (s1, ms1) -> run fuel s1 cs2 = Some (s2, ms2) ->
  run fuel s (cs1 ++ cs2) = Some (s2, ms1 ++ ms2).
Proof.
  revert s ms1. induction cs1 as [|c cs1 IH]; intros s ms1; simpl.
  - by intros [= <- <-] ->.
  - destruct (exec fuel s c) as [[s' m]|]; [|done].
    destruct (run fuel s' cs1) as [[s'' ms']|] eqn:Hrun; [|done].
    intros [= <- <-] H2. by rewrite (IH _ _ Hrun H2).
Qed.

(** X5: no command removes a location: a name that is registered stays
    registered through every later command of the session. *)
Theorem locations_kept fuel cs s s' ms x :
  run fuel s cs = Some (s', ms) ->
  is_Some (deliveryGraph s !! x) -> is_Some (deliveryGraph s' !! x).
Proof.
  revert s s' ms. induction cs as [|c cs IH]; intros s s' ms; simpl.
  { by intros [= <- _]. }
  destruct (exec fuel s c) as [[s1 m]|] eqn:He; [|done].
  destruct (run fuel s1 cs) as [[s2 ms']|] eqn:Hrun; [|done].
  intros [= <- _] Hx. apply (IH _ _ _ Hrun).
  by apply (exec_location_kept _ _ _ _ _ _ He).
Qed.

Lemma locations_kept_witness :
  exists s' ms,
    run 12 (state_after [AddLocation "Depot"]) two_orders = Some (s', ms) /\
    is_Some (deliveryGraph (state_after [AddLocation "Depot"]) !! "Depot"%string) /\
    is_Some (deliveryGraph s' !! "Depot"%string).
Proof.
  assert (is_Some (run 12 (state_after [AddLocation "Depot"]) two_orders))
    as [[s' ms] Hrun] by (apply is_Some_true; vm_compute; reflexivity).
  assert (is_Some (deliveryGraph (state_after [AddLocation "Depot"])
                     !! "Depot"%string)) as Hd
    by (apply count_true; vm_compute; reflexivity).
  exists s', ms. split; [exact Hrun|]. split; [exact Hd|].
  exact (locations_kept 12 two_orders _ s' ms "Depot"%string Hrun Hd).
Defined.

(** X6: in every reachable state both ends of every stored route are
    registered locations. *)
Theorem routes_join_locations s a b w :
  reachable s ->
  edge_weight (deliveryGraph s) a b = Some w ->
  is_Some (deliveryGraph s !! a) /\ is_Some (deliveryGraph s !! b).
Proof.
  intros Hr Hw. split.
  - apply edge_weight_Some in Hw as (adj & Ha & _). by exists adj.
  - destruct (reachable_graph s Hr) as [Hclosed _].
    by apply (proj1 (closed_edge_weight _) Hclosed a b w).
Qed.

Lemma routes_join_locations_witness :
  let s := state_after depot_a_b in
  reachable s /\
  edge_weight (deliveryGraph s) "A" "B" = Some 3 /\
  is_Some (deliveryGraph s !! "A"%string) /\
  is_Some (deliveryGraph s !! "B"%string).
Proof.
  intros s.
  assert (reachable s) as Hr by apply state_after_reachable.
  assert (edge_weight (deliveryGraph s) "A" "B" = Some 3) as Hw
    by (vm_compute; reflexivity).
  split; [exact Hr|]. split; [exact Hw|].
  exact (routes_join_locations s "A" "B" 3 Hr Hw).
Defined.

(** ** The order book *)

Lemma optimize_message fuel s orderId s' m :
  optimizeDeliveryRoute fuel s orderId = Some (s', m) ->
  placed_order m = None /\ delivered_id m = None /\
  (m = DepotMissing -> deliveryGraph s !! "Depot"%string = None).
Proof.
  unfold optimizeDeliveryRoute.
  destruct (count (allOrders s) orderId); cbn [negb]; [|by intros [= _ <-]].
  destruct (index _ (allOrders s) orderId) as [all1 order].
  cbn [deliveryGraph].
  destruct (count (deliveryGraph s) "Depot") eqn:Hc; cbn [negb].
  - repeat case_match; intros Heq; simplify_eq; done.
  - intros [= _ <-]. by apply count_false in Hc.
Qed.

(** What one command does to the queue, the stack and the index. *)
Lemma exec_orders fuel s c s' m :
  exec fuel s c = Some (s', m) ->
  incomingOrders s' ++ completedOrders s' ≡ₚ
    incomingOrders s ++ completedOrders s ++ option_list (placed_order m).
Proof.
  destruct c; cbn [exec]; try exec_pair.
  - unfold addLocation. destruct (negb _);
      [destruct (index ∅ (deliveryGraph s) name)|];
      cbn; by rewrite !app_nil_r.
  - unfold addRoute. destruct (_ && _); cbn; by rewrite !app_nil_r.
  - unfold placeOrder. destruct (_ && _);
      [destruct (index _ (allOrders s) _)|]; cbn.
    + rewrite <- !app_assoc. apply Permutation_app_head, Permutation_app_comm.
    + by rewrite !app_nil_r.
  - unfold processNextOrder.
    destruct (incomingOrders s) as [|o rest] eqn:Hq; cbn; rewrite ?Hq.
    + by rewrite app_nil_r.
    + rewrite app_nil_r. symmetry. apply Permutation_middle.
  - unfold trackLastDelivery.
    destruct (completedOrders s) eqn:Hc; cbn; by rewrite ?Hc, !app_nil_r.
  - unfold listPendingOrders.
    destruct (incomingOrders s) eqn:Hq; cbn; by rewrite ?Hq, !app_nil_r.
  - intros Ho. destruct (optimize_message _ _ _ _ _ Ho) as (-> & _).
    rewrite (optimizeDeliveryRoute_state _ _ _ _ _ Ho). cbn.
    by rewrite !app_nil_r.
  - unfold revertLastDelivery.
    destruct (completedOrders s) as [|o rest] eqn:Hc; cbn; rewrite ?Hc.
    + by rewrite app_nil_r.
    + by rewrite app_nil_r, <- app_assoc.
  - intros [= <- <-]. cbn. by rewrite !app_nil_r.
Qed.

Lemma placed_orders_cons m ms :
  placed_orders (m :: ms) = option_list (placed_order m) ++ placed_orders ms.
Proof. unfold placed_orders. cbn. by destruct (placed_order m). Qed.

Lemma run_orders fuel cs s s' ms :
  run fuel s cs = Some (s', ms) ->
  incomingOrders s' ++ completedOrders s' ≡ₚ
    incomingOrders s ++ completedOrders s ++ placed_orders ms.
Proof.
  revert s s' ms. induction cs as [|c cs IH]; intros s s' ms; simpl.
  { intros [= <- <-]. cbn. by rewrite !app_nil_r. }
  destruct (exec fuel s c) as [[s1 m]|] eqn:He; [|done].
  destruct (run fuel s1 cs) as [[s2 ms']|] eqn:Hrun; [|done].
  intros [= <- <-].
  rewrite (IH _ _ _ Hrun), placed_orders_cons.
  rewrite (app_assoc (incomingOrders s1)), (exec_orders _ _ _ _ _ He).
  by rewrite <- !app_assoc.
Qed.

Lemma orders_conserved_perm fuel cs s ms :
  run fuel fresh cs = Some (s, ms) ->
  incomingOrders s ++ completedOrders s ≡ₚ placed_orders ms.
Proof. intros Hrun. by rewrite (run_orders _ _ _ _ _ Hrun). Qed.

(** X7: no order is lost or doubled: after any session the pending queue
    and the completed stack together hold exactly the orders that were
    placed, each as often as it was placed. *)
Theorem orders_conserved fuel cs s ms :
  run fuel fresh cs = Some (s, ms) ->
  incomingOrders s ++ completedOrders s ≡ₚ placed_orders ms /\
  (length (incomingOrders s) + length (completedOrders s))%nat =
    length (placed_orders ms).
Proof.
  intros Hrun. pose proof (orders_conserved_perm _ _ _ _ Hrun) as Hp.
  split; [done|].
  by rewrite <- length_app, Hp.
Qed.

Lemma orders_conserved_witness :
  exists s ms,
    run 12 fresh two_orders = Some (s, ms) /\
    incomingOrders s ++ completedOrders s ≡ₚ placed_orders ms /\
    (length (incomingOrders s) + length (completedOrders s))%nat =
      length (placed_orders ms).
Proof.
  assert (is_Some (run 12 fresh two_orders)) as [[s ms] Hrun]
    by (apply is_Some_true; vm_compute; reflexivity).
  exists s, ms. split; [exact Hrun|].
  exact (orders_conserved 12 two_orders s ms Hrun).
Defined.

(** What one command does to the index, and the order it creates. *)
Lemma exec_index fuel s c s' m :
  exec fuel s c = Some (s', m) ->
  match placed_order m with
  | Some o =>
    allOrders s' = <[id o := o]> (allOrders s) /\
    id o = nextOrderId s /\ known_order (deliveryGraph s) o
  | None => allOrders s' = allOrders s
  end.
Proof.
  destruct c; cbn [exec]; try exec_pair.
  - unfold addLocation. destruct (negb _); [|done].
    by destruct (index ∅ (deliveryGraph s) name).
  - unfold addRoute. by destruct (_ && _).
  - unfold placeOrder.
    destruct (count (deliveryGraph s) restaurant0) eqn:Hr; [|done].
    destruct (count (deliveryGraph s) destination0) eqn:Hd; [|done].
    apply count_true in Hr, Hd. cbn [andb id].
    unfold index. destruct (allOrders s !! nextOrderId s); cbn.
    + done.
    + by rewrite insert_insert_eq.
  - unfold processNextOrder. by destruct (incomingOrders s).
  - unfold trackLastDelivery. by destruct (completedOrders s).
  - unfold listPendingOrders. by destruct (incomingOrders s).
  - intros Ho. destruct (optimize_message _ _ _ _ _ Ho) as (-> & _).
    by rewrite (optimizeDeliveryRoute_state _ _ _ _ _ Ho).
  - unfold revertLastDelivery. by destruct (completedOrders s).
  - by intros [= <- <-].
Qed.

Lemma known_order_kept fuel s c s' m o :
  exec fuel s c = Some (s', m) ->
  known_order (deliveryGraph s) o -> known_order (deliveryGraph s') o.
Proof.
  intros He [Hr Hd]. split; by apply (exec_location_kept _ _ _ _ _ _ He).
Qed.

(** X8: in every reachable state each pending, completed or indexed
    order runs between two registered locations, and the index holds
    each order under the order's own id. *)
Theorem orders_between_locations s :
  reachable s ->
  (forall o, o ∈ incomingOrders s ++ completedOrders s ->
             known_order (deliveryGraph s) o) /\
  (forall k o, allOrders s !! k = Some o ->
               id o = k /\ known_order (deliveryGraph s) o).
Proof.
  induction 1 as [|fuel s c s' m _ [IHq IHi] He].
  { split; [by intros o ?%elem_of_nil|]. intros k o. cbn.
    by rewrite lookup_empty. }
  pose proof (exec_orders _ _ _ _ _ He) as Hperm.
  pose proof (exec_index _ _ _ _ _ He) as Hidx.
  split.
  - intros o. rewrite Hperm, app_assoc, elem_of_app.
    intros [Ho|Ho].
    + by apply (known_order_kept _ _ _ _ _ _ He), IHq.
    + destruct (placed_order m) as [o'|]; [|by apply elem_of_nil in Ho].
      apply list_elem_of_singleton in Ho as ->.
      apply (known_order_kept _ _ _ _ _ _ He). apply Hidx.
  - intros k o. destruct (placed_order m) as [o'|].
    + destruct Hidx as (-> & Hid & Hknown).
      destruct (decide (id o' = k)) as [<-|Hne].
      * rewrite lookup_insert_eq. intros [= <-]. split; [done|].
        by apply (known_order_kept _ _ _ _ _ _ He).
      * rewrite lookup_insert_ne by done. intros Hk.
        destruct (IHi _ _ Hk). split; [done|].
        by apply (known_order_kept _ _ _ _ _ _ He).
    + rewrite Hidx. intros Hk. destruct (IHi _ _ Hk). split; [done|].
      by apply (known_order_kept _ _ _ _ _ _ He).
Qed.

Lemma orders_between_locations_witness :
  let s := state_after depot_a_apart_b in
  reachable s /\
  (forall o, o ∈ incomingOrders s ++ completedOrders s ->
             known_order (deliveryGraph s) o) /\
  (forall k o, allOrders s !! k = Some o ->
               id o = k /\ known_order (deliveryGraph s) o).
Proof.
  intros s.
  assert (reachable s) as Hr by apply state_after_reachable.
  split; [exact Hr|]. exact (orders_between_locations s Hr).
Defined.

(** *** The index and the ids *)

Lemma placed_ids_orders ms : placed_ids ms = id <$> placed_orders ms.
Proof.
  unfold placed_ids, placed_orders.
  induction ms as [|m ms IH]; [done|].
  cbn. destruct m; cbn; by rewrite ?IH.
Qed.

Lemma placed_ids_cons m ms :
  placed_ids (m :: ms) = option_list (placed_id m) ++ placed_ids ms.
Proof. unfold placed_ids. cbn. by destruct (placed_id m). Qed.

Lemma placed_id_order m : placed_id m = id <$> placed_order m.
Proof. by destruct m. Qed.

Lemma run_index_kept fuel cs s s' ms k o :
  run fuel s cs = Some (s', ms) ->
  allOrders s !! k = Some o -> k ∉ placed_ids ms ->
  allOrders s' !! k = Some o.
Proof.
  revert s s' ms. induction cs as [|c cs IH]; intros s s' ms; simpl.
  { by intros [= <- _]. }
  destruct (exec fuel s c) as [[s1 m]|] eqn:He; [|done].
  destruct (run fuel s1 cs) as [[s2 ms']|] eqn:Hrun; [|done].
  intros [= <- <-] Hk. rewrite placed_ids_cons, placed_id_order.
  intros [Hm Hms]%not_elem_of_app.
  apply (IH _ _ _ Hrun); [|done].
  pose proof (exec_index _ _ _ _ _ He) as Hidx.
  destruct (placed_order m) as [o'|]; [|by rewrite Hidx].
  destruct Hidx as (-> & _). rewrite lookup_insert_ne; [done|].
  intros Heq. apply Hm. cbn. rewrite Heq. apply list_elem_of_here.
Qed.

Lemma run_index_placed fuel cs s s' ms o :
  run fuel s cs = Some (s', ms) ->
  NoDup (placed_ids ms) -> o ∈ placed_orders ms ->
  allOrders s' !! id o = Some o.
Proof.
  revert s s' ms. induction cs as [|c cs IH]; intros s s' ms; simpl.
  { intros [= <- <-] _ Ho. by apply elem_of_nil in Ho. }
  destruct (exec fuel s c) as [[s1 m]|] eqn:He; [|done].
  destruct (run fuel s1 cs) as [[s2 ms']|] eqn:Hrun; [|done].
  intros [= <- <-].
  rewrite placed_ids_cons, placed_orders_cons, placed_id_order.
  pose proof (exec_index _ _ _ _ _ He) as Hidx.
  destruct (placed_order m) as [o'|]; cbn.
  - intros [Hnew Hnd]%NoDup_cons [->|Ho]%elem_of_cons.
    + apply (run_index_kept _ _ _ _ _ _ _ Hrun); [|done].
      destruct Hidx as (-> & _). apply lookup_insert_eq.
    + by apply (IH _ _ _ Hrun).
  - intros Hnd Ho. by apply (IH _ _ _ Hrun).
Qed.

Lemma run_index_from fuel cs s s' ms k o :
  run fuel s cs = Some (s', ms) ->
  allOrders s' !! k = Some o ->
  allOrders s !! k = Some o \/ o ∈ placed_orders ms.
Proof.
  revert s s' ms. induction cs as [|c cs IH]; intros s s' ms; simpl.
  { intros [= <- _] Hk. by left. }
  destruct (exec fuel s c) as [[s1 m]|] eqn:He; [|done].
  destruct (run fuel s1 cs) as [[s2 ms']|] eqn:Hrun; [|done].
  intros [= <- <-] Hk. rewrite placed_orders_cons.
  destruct (IH _ _ _ Hrun Hk) as [Hk1|Hin];
    [|right; apply elem_of_app; by right].
  pose proof (exec_index _ _ _ _ _ He) as Hidx.
  destruct (placed_order m) as [o'|]; [|left; by rewrite <- Hidx].
  destruct Hidx as (Hidx & _). rewrite Hidx in Hk1.
  destruct (decide (id o' = k)) as [<-|Hne].
  - rewrite lookup_insert_eq in Hk1. injection Hk1 as ->.
    right. apply elem_of_app. left. apply list_elem_of_here.
  - rewrite lookup_insert_ne in Hk1 by done. by left.
Qed.

Lemma placed_ids_NoDup fuel cs s ms :
  run fuel fresh cs = Some (s, ms) ->
  Z.of_nat (length (placed_ids ms)) <= 2147482647 ->
  NoDup (placed_ids ms).
Proof.
  intros Hrun Hb.
  rewrite (run_placed_ids _ _ _ _ _ Hrun).
  - apply NoDup_seqZ.
  - unfold in_int, INT_MIN, INT_MAX. simpl. lia.
  - unfold INT_MAX. simpl. lia.
Qed.

(** X9: while at most 2147482647 orders have been placed, the index
    holds exactly the orders that are pending or completed, each under
    its id: an order is in the queue or on the stack if and only if
    looking up its id in the index gives that order. *)
Theorem index_holds_orders fuel cs s ms :
  run fuel fresh cs = Some (s, ms) ->
  Z.of_nat (length (placed_ids ms)) <= 2147482647 ->
  forall o,
    o ∈ incomingOrders s ++ completedOrders s <->
    allOrders s !! id o = Some o.
Proof.
  intros Hrun Hb o.
  pose proof (placed_ids_NoDup _ _ _ _ Hrun Hb) as Hnd.
  rewrite (orders_conserved_perm fuel cs s ms Hrun). split.
  - by apply (run_index_placed _ _ _ _ _ _ Hrun).
  - intros Hk. destruct (run_index_from _ _ _ _ _ _ _ Hrun Hk) as [Hf|?];
      [|done].
    cbn in Hf. by rewrite lookup_empty in Hf.
Qed.

Lemma index_holds_orders_witness :
  exists s ms,
    run 12 fresh two_orders = Some (s, ms) /\
    Z.of_nat (length (placed_ids ms)) <= 2147482647 /\
    forall o,
      o ∈ incomingOrders s ++ completedOrders s <->
      allOrders s !! id o = Some o.
Proof.
  assert (is_Some (run 12 fresh two_orders)) as [[s ms] Hrun]
    by (apply is_Some_true; vm_compute; reflexivity).
  assert (Z.of_nat (length (placed_ids ms)) <= 2147482647) as Hb.
  { assert (length <$> (placed_ids <$> (snd <$> run 12 fresh two_orders))
            = Some 2%nat) as Hc by (vm_compute; reflexivity).
    rewrite Hrun in Hc. injection Hc as ->. lia. }
  exists s, ms. split; [exact Hrun|]. split; [exact Hb|].
  exact (index_holds_orders 12 two_orders s ms Hrun Hb).
Defined.

(** X10: while at most 2147482647 orders have been placed, the ids of
    the pending and completed orders are all different; so no order is
    pending and completed at once. *)
Theorem pending_completed_apart fuel cs s ms :
  run fuel fresh cs = Some (s, ms) ->
  Z.of_nat (length (placed_ids ms)) <= 2147482647 ->
  NoDup (id <$> (incomingOrders s ++ completedOrders s)) /\
  forall o, o ∈ incomingOrders s -> o ∉ completedOrders s.
Proof.
  intros Hrun Hb.
  assert (NoDup (id <$> (incomingOrders s ++ completedOrders s))) as Hnd.
  { rewrite (orders_conserved_perm fuel cs s ms Hrun), <- placed_ids_orders.
    by apply (placed_ids_NoDup _ _ _ _ Hrun). }
  split; [done|].
  apply NoDup_fmap_1, NoDup_app in Hnd as (_ & Hapart & _). exact Hapart.
Qed.

Lemma pending_completed_apart_witness :
  exists s ms,
    run 12 fresh two_orders = Some (s, ms) /\
    Z.of_nat (length (placed_ids ms)) <= 2147482647 /\
    NoDup (id <$> (incomingOrders s ++ completedOrders s)).
Proof.
  assert (is_Some (run 12 fresh two_orders)) as [[s ms] Hrun]
    by (apply is_Some_true; vm_compute; reflexivity).
  assert (Z.of_nat (length (placed_ids ms)) <= 2147482647) as Hb.
  { assert (length <$> (placed_ids <$> (snd <$> run 12 fresh two_orders))
            = Some 2%nat) as Hc by (vm_compute; reflexivity).
    rewrite Hrun in Hc. injection Hc as ->. lia. }
  exists s, ms. split; [exact Hrun|]. split; [exact Hb|].
  exact (proj1 (pending_completed_apart 12 two_orders s ms Hrun Hb)).
Defined.

(** ** First in, first out *)

Lemma delivered_ids_cons m ms :
  delivered_ids (m :: ms) = option_list (delivered_id m) ++ delivered_ids ms.
Proof. unfold delivered_ids. cbn. by destruct (delivered_id m). Qed.

Lemma exec_fifo fuel s c s' m :
  exec fuel s c = Some (s', m) -> is_revert c = false ->
  (id <$> incomingOrders s) ++ option_list (placed_id m) =
  option_list (delivered_id m) ++ (id <$> incomingOrders s').
Proof.
  destruct c; cbn [exec is_revert]; try done; intros He _; revert He;
    try exec_pair.
  - unfold addLocation. destruct (negb _);
      [destruct (index ∅ (deliveryGraph s) name)|]; cbn; by rewrite app_nil_r.
  - unfold addRoute. destruct (_ && _); cbn; by rewrite app_nil_r.
  - unfold placeOrder. destruct (_ && _);
      [destruct (index _ (allOrders s) _)|]; cbn.
    + by rewrite fmap_app.
    + by rewrite app_nil_r.
  - unfold processNextOrder.
    destruct (incomingOrders s) eqn:Hq; cbn; by rewrite ?Hq, ?app_nil_r.
  - unfold trackLastDelivery.
    destruct (completedOrders s); cbn; by rewrite app_nil_r.
  - unfold listPendingOrders.
    destruct (incomingOrders s) eqn:Hq; cbn; by rewrite ?Hq, ?app_nil_r.
  - intros Ho.
    destruct (optimize_message _ _ _ _ _ Ho) as (Hp & -> & _).
    rewrite placed_id_order, Hp, (optimizeDeliveryRoute_state _ _ _ _ _ Ho).
    cbn. by rewrite app_nil_r.
  - intros [= <- <-]. cbn. by rewrite app_nil_r.
Qed.

(** X11: orders are delivered in the order in which they were placed:
    in a session without [revertLastDelivery] the ids delivered so far,
    followed by the ids still pending, are the ids placed, in order. *)
Theorem delivered_in_placement_order fuel cs s ms :
  run fuel fresh cs = Some (s, ms) ->
  forallb (fun c => negb (is_revert c)) cs = true ->
  placed_ids ms = delivered_ids ms ++ (id <$> incomingOrders s).
Proof.
  assert (forall cs s0 s ms,
            run fuel s0 cs = Some (s, ms) ->
            forallb (fun c => negb (is_revert c)) cs = true ->
            (id <$> incomingOrders s0) ++ placed_ids ms =
            delivered_ids ms ++ (id <$> incomingOrders s)) as Hgen.
  { clear. induction cs as [|c cs IH]; intros s0 s ms; simpl.
    { intros [= <- <-] _. cbn. by rewrite app_nil_r. }
    destruct (exec fuel s0 c) as [[s1 m]|] eqn:He; [|done].
    destruct (run fuel s1 cs) as [[s2 ms']|] eqn:Hrun; [|done].
    intros [= <- <-] [Hc Hcs]%andb_true_iff.
    apply negb_true_iff in Hc.
    rewrite placed_ids_cons, delivered_ids_cons, app_assoc.
    rewrite (exec_fifo _ _ _ _ _ He Hc), <- !app_assoc.
    f_equal. by apply IH. }
  intros Hrun Hcs. by rewrite <- (Hgen _ _ _ _ Hrun Hcs).
Qed.

Lemma delivered_in_placement_order_witness :
  exists s ms,
    run 12 fresh two_deliveries = Some (s, ms) /\
    forallb (fun c => negb (is_revert c)) two_deliveries = true /\
    delivered_ids ms = [1001; 1002] /\
    placed_ids ms = delivered_ids ms ++ (id <$> incomingOrders s).
Proof.
  assert (is_Some (run 12 fresh two_deliveries)) as [[s ms] Hrun]
    by (apply is_Some_true; vm_compute; reflexivity).
  assert (forallb (fun c => negb (is_revert c)) two_deliveries = true) as Hcs
    by reflexivity.
  assert (delivered_ids ms = [1001; 1002]) as Hd.
  { assert (delivered_ids <$> (snd <$> run 12 fresh two_deliveries)
            = Some [1001; 1002]) as Hc by (vm_compute; reflexivity).
    rewrite Hrun in Hc. by injection Hc. }
  exists s, ms. split; [exact Hrun|]. split; [exact Hcs|]. split; [exact Hd|].
  exact (delivered_in_placement_order 12 two_deliveries s ms Hrun Hcs).
Defined.

(** ** Processing and reverting several orders *)

Lemma run_process_front fuel q1 : forall s q2,
  incomingOrders s = q1 ++ q2 ->
  run fuel s (repeat ProcessNext (length q1)) =
  Some ({| incomingOrders := q2;
           completedOrders := rev q1 ++ completedOrders s;
           deliveryGraph := deliveryGraph s; allOrders := allOrders s;
           nextOrderId := nextOrderId s |},
        (fun o => OrderDelivered (id o)) <$> q1).
Proof.
  induction q1 as [|o q1 IH]; intros s q2 Hq.
  - cbn. destruct s. cbn in *. by subst.
  - cbn [length repeat].
    apply (run_cons _ _ _ _ (processNextOrder s).1).
    + cbn [exec]. unfold processNextOrder. by rewrite Hq.
    + unfold processNextOrder. rewrite Hq. cbn [app fst].
      rewrite (IH _ q2) by done. cbn.
      by rewrite <- app_assoc.
Qed.

(** X12: processing as many orders as a front part [q1] of the queue
    holds delivers them front first, leaves the rest of the queue pending
    and puts them on the stack with the last one delivered on top. *)
Theorem process_front fuel s q1 q2 :
  incomingOrders s = q1 ++ q2 ->
  run fuel s (repeat ProcessNext (length q1)) =
  Some ({| incomingOrders := q2;
           completedOrders := rev q1 ++ completedOrders s;
           deliveryGraph := deliveryGraph s; allOrders := allOrders s;
           nextOrderId := nextOrderId s |},
        (fun o => OrderDelivered (id o)) <$> q1).
Proof. apply run_process_front. Qed.

Lemma process_front_witness :
  let o1 := mkOrder 1001 "A" "B" (S754_zero false) in
  let o2 := mkOrder 1002 "B" "A" (S754_zero false) in
  let o3 := mkOrder 1003 "A" "A" (S754_zero false) in
  let s := {| incomingOrders := [o1; o2; o3]; completedOrders := [];
              deliveryGraph := ∅; allOrders := ∅; nextOrderId := 1004 |} in
  incomingOrders s = [o1; o2] ++ [o3] /\
  run O s [ProcessNext; ProcessNext] =
  Some ({| incomingOrders := [o3]; completedOrders := [o2; o1];
           deliveryGraph := ∅; allOrders := ∅; nextOrderId := 1004 |},
        [OrderDelivered 1001; OrderDelivered 1002]).
Proof.
  intros o1 o2 o3 s.
  assert (incomingOrders s = [o1; o2] ++ [o3]) as Hq by reflexivity.
  split; [exact Hq|].
  exact (process_front O s [o1; o2] [o3] Hq).
Defined.

Lemma run_revert_top fuel c1 : forall s c2,
  completedOrders s = c1 ++ c2 ->
  run fuel s (repeat RevertLast (length c1)) =
  Some ({| incomingOrders := incomingOrders s ++ c1;
           completedOrders := c2;
           deliveryGraph := deliveryGraph s; allOrders := allOrders s;
           nextOrderId := nextOrderId s |},
        (fun o => Reverted (id o)) <$> c1).
Proof.
  induction c1 as [|o c1 IH]; intros s c2 Hc.
  - cbn. rewrite app_nil_r. destruct s. cbn in *. by subst.
  - cbn [length repeat].
    apply (run_cons _ _ _ _ (revertLastDelivery s).1).
    + cbn [exec]. unfold revertLastDelivery. by rewrite Hc.
    + unfold revertLastDelivery. rewrite Hc. cbn [app fst].
      rewrite (IH _ c2) by done. cbn.
      by rewrite <- app_assoc.
Qed.

(** X13: reverting as many deliveries as a top part [c1] of the stack
    holds appends them to the queue, the latest delivery first, and
    leaves the rest of the stack. *)
Theorem revert_top fuel s c1 c2 :
  completedOrders s = c1 ++ c2 ->
  run fuel s (repeat RevertLast (length c1)) =
  Some ({| incomingOrders := incomingOrders s ++ c1;
           completedOrders := c2;
           deliveryGraph := deliveryGraph s; allOrders := allOrders s;
           nextOrderId := nextOrderId s |},
        (fun o => Reverted (id o)) <$> c1).
Proof. apply run_revert_top. Qed.

Lemma revert_top_witness :
  let o1 := mkOrder 1001 "A" "B" (S754_zero false) in
  let o2 := mkOrder 1002 "B" "A" (S754_zero false) in
  let o3 := mkOrder 1003 "A" "A" (S754_zero false) in
  let s := {| incomingOrders := [o3]; completedOrders := [o2; o1];
              deliveryGraph := ∅; allOrders := ∅; nextOrderId := 1004 |} in
  completedOrders s = [o2; o1] ++ [] /\
  run O s [RevertLast; RevertLast] =
  Some ({| incomingOrders := [o3; o2; o1]; completedOrders := [];
           deliveryGraph := ∅; allOrders := ∅; nextOrderId := 1004 |},
        [Reverted 1002; Reverted 1001]).
Proof.
  intros o1 o2 o3 s.
  assert (completedOrders s = [o2; o1] ++ []) as Hc by reflexivity.
  split; [exact Hc|].
  exact (revert_top O s [o2; o1] [] Hc).
Defined.

(** X14: processing the whole queue and then reverting as many
    deliveries puts the same orders back in the queue in the opposite
    order; the stack and the rest of the state are as before. *)
Theorem process_all_revert_all fuel s :
  exists ms,
    run fuel s (repeat ProcessNext (length (incomingOrders s)) ++
                repeat RevertLast (length (incomingOrders s))) =
    Some ({| incomingOrders := rev (incomingOrders s);
             completedOrders := completedOrders s;
             deliveryGraph := deliveryGraph s; allOrders := allOrders s;
             nextOrderId := nextOrderId s |}, ms).
Proof.
  eexists.
  pose proof (run_process_front fuel (incomingOrders s) s []
                (eq_sym (app_nil_r _))) as H1.
  eapply run_app; [exact H1|].
  rewrite <- length_rev.
  rewrite (run_revert_top fuel (rev (incomingOrders s)) _ (completedOrders s));
    [|done].
  done.
Qed.

(** ** The distance of a path *)

Lemma sum_edges_wrap g path total :
  in_int total ->
  sum_edges g path total =
  (g, match path_weight g path with
      | Some t => wrap (total + t)
      | None => INT_MAX
      end).
Proof.
  revert total. induction path as [|a path IH]; intros total Hin.
  { cbn. rewrite Z.add_0_r, wrap_small; done. }
  destruct path as [|b rest].
  { cbn. rewrite Z.add_0_r, wrap_small; done. }
  rewrite sum_edges_step, path_weight_step. unfold edge_weight.
  destruct (count g a) eqn:Ha.
  - apply count_true in Ha as [adj Hadj].
    rewrite !(index_present _ _ _ _ Hadj), Hadj.
    destruct (count adj b) eqn:Hb.
    + apply count_true in Hb as [w Hw].
      rewrite (index_present _ _ _ _ Hw), Hw, insert_id by done.
      rewrite IH by apply wrap_in_int.
      destruct (path_weight g (b :: rest)) as [t|]; [|done].
      unfold int_add. rewrite wrap_add_l. do 2 f_equal. lia.
    + apply count_false in Hb. by rewrite Hb.
  - apply count_false in Ha. by rewrite Ha.
Qed.

(** X15: [calculatePathDistance] leaves the graph as it is and returns
    the sum of the weights along the path, reduced to a 32-bit int, when
    every consecutive pair of the path is a stored route, and [INT_MAX]
    as soon as one pair is not. *)
Theorem calculatePathDistance_sums g path :
  calculatePathDistance g path =
  (g, match path_weight g path with
      | Some t => wrap t
      | None => INT_MAX
      end).
Proof.
  unfold calculatePathDistance.
  destruct path as [|a [|b rest]]; [done..|].
  change (length (a :: b :: rest) <? 2)%nat with false. cbv iota.
  by rewrite sum_edges_wrap.
Qed.

(** ** The search on an arbitrary graph *)

(** X16: the main loop of the search ends on every graph, whatever the
    weights: within [enough_fuel g] iterations the queue is empty, and
    the graph is as before. *)
Theorem search_always_ends g start fuel :
  (enough_fuel g <= fuel)%nat ->
  exists st, run_search fuel g start = Some st /\ pq st = [] /\ graph st = g.
Proof.
  intros Hfuel.
  assert (is_Some (run_search fuel g start)) as [st Hst].
  { unfold run_search. destruct (index 0 (init_distances g) start) as [d1 x].
    apply search_loop_terminates.
    unfold search_measure, enough_fuel in *. simpl. lia. }
  exists st. split; [done|]. split.
  - unfold run_search in Hst.
    destruct (index 0 (init_distances g) start). by eapply search_loop_final.
  - by eapply run_search_graph.
Qed.

Lemma search_always_ends_witness :
  let g := deliveryGraph (state_after negative_star) in
  (enough_fuel g <= 14)%nat /\
  exists st, run_search 14 g "A" = Some st /\ pq st = [] /\ graph st = g.
Proof.
  intros g.
  assert (enough_fuel g <= 14)%nat as Hfuel by (vm_compute; lia).
  split; [exact Hfuel|].
  exact (search_always_ends g "A" 14 Hfuel).
Defined.

Lemma relax_predecessors current st edge v u :
  predecessors (relax current st edge) !! v = Some u ->
  (v = edge.1 /\ u = current) \/ predecessors st !! v = Some u.
Proof.
  unfold relax.
  repeat (match goal with
          | |- context [index ?d (distances ?s) ?k] =>
            destruct (index d (distances s) k)
          | |- context [index 0 ?m ?k] => destruct (index 0 m k)
          end; cbn [fst snd]).
  destruct (bool_decide _); [|by right].
  destruct (_ <? _); [|by right].
  unfold index. destruct (predecessors st !! edge.1) eqn:Hp; cbn.
  - destruct (decide (v = edge.1)) as [->|Hne].
    + rewrite lookup_insert_eq. intros [= <-]. by left.
    + rewrite lookup_insert_ne by done. by right.
  - destruct (decide (v = edge.1)) as [->|Hne].
    + rewrite lookup_insert_eq. intros [= <-]. by left.
    + rewrite !lookup_insert_ne by done. by right.
Qed.

Lemma fold_relax_pred_edges current adj l st :
  graph st !! current = Some adj ->
  (forall e, e ∈ l -> adj !! e.1 = Some e.2) ->
  pred_edges st -> pred_edges (fold_left (relax current) l st).
Proof.
  revert st. induction l as [|e l IH]; intros st Hadj Hl Hst; [done|].
  cbn [fold_left]. apply IH.
  - by rewrite relax_graph.
  - intros e' He'. apply Hl. by right.
  - intros v u Hp. rewrite relax_graph.
    apply relax_predecessors in Hp as [[-> ->]|Hp]; [|by apply Hst].
    exists e.2. apply edge_weight_Some. exists adj. split; [done|].
    apply Hl. by left.
Qed.

Lemma explore_pred_edges current st :
  pred_edges st -> pred_edges (explore current st).
Proof.
  intros Hst. unfold explore.
  destruct (count (graph st) current) eqn:Hc; [|done].
  apply count_true in Hc as [adj Hadj].
  rewrite (index_present _ _ _ _ Hadj).
  apply (fold_relax_pred_edges _ adj); [done| |done].
  intros [k w] He. by apply elem_of_entries.
Qed.

Lemma search_loop_pred_edges fuel st st' :
  search_loop fuel st = Some st' -> pred_edges st -> pred_edges st'.
Proof.
  revert st. induction fuel as [|fuel IH]; intros st; simpl.
  - destruct (pq_top (pq st)); [done|]. by intros [= <-].
  - destruct (pq_top (pq st)) as [top|]; [|by intros [= <-]].
    case_bool_decide; intros Hs Hst.
    + by apply (IH _ Hs).
    + apply (IH _ Hs). by apply explore_pred_edges.
Qed.

Lemma run_search_pred_edges fuel g start st :
  run_search fuel g start = Some st -> pred_edges st.
Proof.
  unfold run_search. destruct (index 0 (init_distances g) start).
  intros Hs. apply (search_loop_pred_edges _ _ _ Hs).
  intros v u Hp. cbn in Hp. by rewrite lookup_empty in Hp.
Qed.

Lemma walk_back_linked fuel preds start : forall current acc path,
  walk_back fuel preds start current acc = Some path ->
  exists l, path = acc ++ l /\ linked preds current l.
Proof.
  induction fuel as [|fuel IH]; intros current acc path; cbn [walk_back].
  - destruct (count preds current); [done|].
    intros [= <-]. exists []. by rewrite app_nil_r.
  - destruct (count preds current) eqn:Hc; cycle 1.
    { intros [= <-]. exists []. by rewrite app_nil_r. }
    apply count_true in Hc as [y Hy].
    rewrite (index_present _ _ _ _ Hy).
    case_bool_decide as Hstart.
    + intros [= <-]. exists [current; start].
      rewrite <- app_assoc. split; [done|].
      cbn. split; [done|]. right. exists y. subst y. auto.
    + intros Hw. destruct (IH _ _ _ Hw) as (l & -> & Hl).
      exists (current :: l). rewrite <- app_assoc. split; [done|].
      cbn. split; [done|]. destruct l as [|x l]; [by left|].
      right. exists y. split; [done|]. exact Hl.
Qed.

Lemma linked_head preds current x l : linked preds current (x :: l) -> x = current.
Proof. by intros [? _]. Qed.

Lemma linked_route g preds : forall l current,
  (forall v u, preds !! v = Some u -> is_Some (edge_weight g u v)) ->
  linked preds current l -> is_Some (path_weight g (rev l)).
Proof.
  induction l as [|x l IH]; intros current Hpreds; [by eexists|].
  intros [-> [->|(y & Hy & Hl)]]; [by eexists|].
  destruct l as [|x l]; [by eexists|].
  pose proof (linked_head _ _ _ _ Hl) as ->.
  destruct (IH _ Hpreds Hl) as [t Ht].
  destruct (Hpreds _ _ Hy) as [w Hw].
  change (rev (current :: y :: l)) with (rev (y :: l) ++ [current]).
  exists (t + w). apply (path_weight_snoc g _ y); [|done|done].
  by rewrite rev_reverse, last_reverse.
Qed.

(** X17: on every graph and with any weights, a non-empty path returned
    by [findShortestPath] begins at [start], ends at [end_] and follows
    stored routes only. *)
Theorem returned_path_is_route fuel g start end_ g' path :
  findShortestPath fuel g start end_ = Some (g', path) -> path <> [] ->
  exists t, route_from_to g start end_ path t.
Proof.
  unfold findShortestPath.
  destruct (negb (count (init_distances g) start)); [by intros [= _ <-]|].
  destruct (run_search fuel g start) as [st|] eqn:Hs; [|done].
  pose proof (run_search_pred_edges _ _ _ _ Hs) as Hedges.
  rewrite (run_search_graph _ _ _ _ Hs) in *.
  unfold pred_edges in Hedges. rewrite (run_search_graph _ _ _ _ Hs) in Hedges.
  destruct (_ || _); [by intros [= _ <-]|].
  destruct (walk_back fuel (predecessors st) start end_ []) as [walk|] eqn:Hw;
    [|done].
  destruct (walk_back_linked _ _ _ _ _ _ Hw) as (l & Hl & Hlinked).
  cbn in Hl. subst walk.
  destruct (rev l) as [|front rest] eqn:Hrev; [by intros [= _ <-]|].
  case_bool_decide as Hfront; [|by intros [= _ <-]].
  intros [= _ <-] _. subst front.
  destruct (linked_route g _ _ _ Hedges Hlinked) as [t Ht].
  rewrite Hrev in Ht. exists t.
  split; [done|]. split; [|done].
  rewrite <- Hrev, rev_reverse, last_reverse.
  destruct l as [|x l]; [done|].
  by rewrite (linked_head _ _ _ _ Hlinked).
Qed.

Lemma returned_path_is_route_witness :
  let g := deliveryGraph (state_after depot_a_b) in
  exists g' path,
    findShortestPath 12 g "Depot" "B" = Some (g', path) /\ path <> [] /\
    exists t, route_from_to g "Depot" "B" path t.
Proof.
  intros g.
  assert (is_Some (findShortestPath 12 g "Depot" "B")) as [[g' path] Hf]
    by (apply is_Some_true; vm_compute; reflexivity).
  assert (path <> []) as Hne.
  { assert (snd <$> findShortestPath 12 g "Depot" "B"
            = Some ["Depot"; "A"; "B"]%string) as Hp
      by (vm_compute; reflexivity).
    rewrite Hf in Hp. cbn in Hp. injection Hp as ->. done. }
  exists g', path. split; [exact Hf|]. split; [exact Hne|].
  exact (returned_path_is_route 12 g "Depot" "B" g' path Hf Hne).
Defined.

(** ** Routes and recorded distances *)

Lemma path_weight_app g p1 b r t1 t2 :
  last p1 = Some b -> path_weight g p1 = Some t1 ->
  path_weight g (b :: r) = Some t2 ->
  path_weight g (p1 ++ r) = Some (t1 + t2).
Proof.
  revert t1. induction p1 as [|x p1 IH]; intros t1; [done|].
  destruct p1 as [|y rest].
  - intros [= ->] [= <-] Hr. exact Hr.
  - intros Hlast. rewrite path_weight_step.
    destruct (edge_weight g x y) as [w|] eqn:Hw; [|done].
    destruct (path_weight g (y :: rest)) as [t'|] eqn:Ht'; [|done].
    intros [= <-] Hr.
    change ((x :: y :: rest) ++ r) with (x :: y :: (rest ++ r)).
    rewrite path_weight_step, Hw.
    change (y :: rest ++ r) with ((y :: rest) ++ r).
    rewrite (IH t') by done. f_equal. lia.
Qed.

Lemma route_app g a b c p1 p2 t1 t2 :
  route_from_to g a b p1 t1 -> route_from_to g b c p2 t2 ->
  route_from_to g a c (p1 ++ tail p2) (t1 + t2).
Proof.
  intros (Hh1 & Hl1 & Hw1) (Hh2 & Hl2 & Hw2).
  destruct p2 as [|x r]; [done|]. injection Hh2 as ->. cbn [tail].
  split; [|split].
  - by destruct p1.
  - destruct r as [|y r].
    + rewrite app_nil_r. by injection Hl2 as <-.
    + rewrite last_cons_cons in Hl2. by rewrite last_app, Hl2.
  - by apply (path_weight_app g p1 b).
Qed.

(** X18: on a graph with non-negative weights whose sums stay inside
    [int], [findShortestPath] between two locations returns a non-empty
    path exactly when the end is another location and some sequence of
    routes leads to it. *)
Theorem path_found_iff_route g W start end_ fuel :
  closed g -> no_overflow W g ->
  is_Some (g !! start) -> is_Some (g !! end_) ->
  (enough_fuel g <= fuel)%nat ->
  (exists path, path <> [] /\
                findShortestPath fuel g start end_ = Some (g, path)) <->
  start <> end_ /\ exists p t, route_from_to g start end_ p t.
Proof.
  intros Hclosed Hno Hs He Hfuel.
  destruct (findShortestPath_spec g W start end_ fuel Hclosed Hno Hs He Hfuel)
    as (d & Hd & [[Hcase Hempty]|(Hne & Hfin & path & Hpath & Hfind & _ & Hroute)]).
  - split.
    + intros (path & Hpath & Hfind). congruence.
    + intros (Hne & p & t & Hroute).
      destruct (search_distance_least g W start end_ fuel p t
                  Hclosed Hno Hfuel Hs Hroute) as (d' & Hd' & _ & Hfin).
      destruct Hcase as [?|?]; congruence.
  - split; [|by eauto].
    intros _. split; [done|]. eauto.
Qed.

Lemma path_found_iff_route_witness :
  let g := deliveryGraph (state_after depot_a_b) in
  closed g /\ no_overflow 5 g /\
  is_Some (g !! "Depot"%string) /\ is_Some (g !! "B"%string) /\
  (enough_fuel g <= 12)%nat /\
  ((exists path, path <> [] /\
                 findShortestPath 12 g "Depot" "B" = Some (g, path)) <->
   "Depot"%string <> "B"%string /\
   exists p t, route_from_to g "Depot" "B" p t).
Proof.
  intros g.
  assert (closed g) as Hclosed by (unfold closed; compute_done).
  assert (no_overflow 5 g) as Hno
    by (unfold no_overflow, weights_within; compute_done).
  assert (is_Some (g !! "Depot"%string)) as Hs
    by (apply count_true; vm_compute; reflexivity).
  assert (is_Some (g !! "B"%string)) as He
    by (apply count_true; vm_compute; reflexivity).
  assert (enough_fuel g <= 12)%nat as Hfuel by (vm_compute; lia).
  split; [exact Hclosed|]. split; [exact Hno|]. split; [exact Hs|].
  split; [exact He|]. split; [exact Hfuel|].
  exact (path_found_iff_route g 5 "Depot" "B" 12 Hclosed Hno Hs He Hfuel).
Defined.

(** X19: on such a graph the recorded distances obey the triangle
    inequality: when the search from [a] reaches [b] and the search from
    [b] reaches [c], the search from [a] reaches [c] at no more than the
    sum of the two distances. *)
Theorem search_distance_triangle g W a b c fuel dab dbc :
  closed g -> no_overflow W g -> (enough_fuel g <= fuel)%nat ->
  is_Some (g !! a) -> is_Some (g !! b) ->
  search_distance fuel g a b = Some dab -> dab <> INT_MAX ->
  search_distance fuel g b c = Some dbc -> dbc <> INT_MAX ->
  exists dac, search_distance fuel g a c = Some dac /\
              dac <= dab + dbc /\ dac <> INT_MAX.
Proof.
  intros Hclosed Hno Hfuel Ha Hb Hab Hfab Hbc Hfbc.
  destruct (search_distance_route g W a b fuel dab Hclosed Hno Hfuel Ha Hab Hfab)
    as [p1 Hp1].
  destruct (search_distance_route g W b c fuel dbc Hclosed Hno Hfuel Hb Hbc Hfbc)
    as [p2 Hp2].
  exact (search_distance_least g W a c fuel _ _ Hclosed Hno Hfuel Ha
           (route_app g a b c p1 p2 dab dbc Hp1 Hp2)).
Qed.

Lemma search_distance_triangle_witness :
  let g := deliveryGraph (state_after depot_a_b) in
  closed g /\ no_overflow 5 g /\ (enough_fuel g <= 12)%nat /\
  is_Some (g !! "Depot"%string) /\ is_Some (g !! "A"%string) /\
  search_distance 12 g "Depot" "A" = Some 5 /\ 5 <> INT_MAX /\
  search_distance 12 g "A" "B" = Some 3 /\ 3 <> INT_MAX /\
  exists dac, search_distance 12 g "Depot" "B" = Some dac /\
              dac <= 5 + 3 /\ dac <> INT_MAX.
Proof.
  intros g.
  assert (closed g) as Hclosed by (unfold closed; compute_done).
  assert (no_overflow 5 g) as Hno
    by (unfold no_overflow, weights_within; compute_done).
  assert (enough_fuel g <= 12)%nat as Hfuel by (vm_compute; lia).
  assert (is_Some (g !! "Depot"%string)) as Ha
    by (apply count_true; vm_compute; reflexivity).
  assert (is_Some (g !! "A"%string)) as Hb
    by (apply count_true; vm_compute; reflexivity).
  assert (search_distance 12 g "Depot" "A" = Some 5) as Hab
    by (vm_compute; reflexivity).
  assert (5 <> INT_MAX) as Hfab by (unfold INT_MAX; lia).
  assert (search_distance 12 g "A" "B" = Some 3) as Hbc
    by (vm_compute; reflexivity).
  assert (3 <> INT_MAX) as Hfbc by (unfold INT_MAX; lia).
  split; [exact Hclosed|]. split; [exact Hno|]. split; [exact Hfuel|].
  split; [exact Ha|]. split; [exact Hb|]. split; [exact Hab|].
  split; [exact Hfab|]. split; [exact Hbc|]. split; [exact Hfbc|].
  exact (search_distance_triangle g 5 "Depot" "A" "B" 12 5 3
           Hclosed Hno Hfuel Ha Hb Hab Hfab Hbc Hfbc).
Defined.

(** ** The depot *)

Lemma addLocation_known s name :
  is_Some (deliveryGraph (addLocation s name).1 !! name).
Proof.
  unfold addLocation.
  destruct (count (deliveryGraph s) name) eqn:Hc; cbn [negb fst].
  - by apply count_true.
  - destruct (index ∅ (deliveryGraph s) name). cbn.
    rewrite lookup_insert_eq. by eexists.
Qed.

Lemma exec_depot_missing fuel s c s' :
  exec fuel s c = Some (s', DepotMissing) ->
  deliveryGraph s !! "Depot"%string = None.
Proof.
  destruct c; cbn [exec];
    try (unfold addLocation, addRoute, placeOrder, processNextOrder,
           trackLastDelivery, listPendingOrders, revertLastDelivery,
           systemStatus;
         repeat case_match; intros Heq; by simplify_eq).
  intros Ho. destruct (optimize_message _ _ _ _ _ Ho) as (_ & _ & Hd). by apply Hd.
Qed.

Lemma run_depot_known fuel cs : forall s s' ms,
  is_Some (deliveryGraph s !! "Depot"%string) ->
  run fuel s cs = Some (s', ms) -> DepotMissing ∉ ms.
Proof.
  induction cs as [|c cs IH]; intros s s' ms Hd; simpl.
  { intros [= _ <-]. apply not_elem_of_nil. }
  destruct (exec fuel s c) as [[s1 m]|] eqn:He; [|done].
  destruct (run fuel s1 cs) as [[s2 ms']|] eqn:Hrun; [|done].
  intros [= _ <-]. apply not_elem_of_cons. split.
  - intros <-. apply exec_depot_missing in He. rewrite He in Hd.
    by destruct Hd.
  - apply (IH s1 s2); [|done]. by apply (exec_location_kept _ _ _ _ _ _ He).
Qed.

(** X20: once the depot has been registered, as [main] does before the
    menu loop, no later [optimizeDeliveryRoute] reports that the depot is
    missing, whatever commands came in between. *)
Theorem depot_never_missing fuel s0 cs s ms :
  run fuel s0 (AddLocation "Depot" :: cs) = Some (s, ms) ->
  DepotMissing ∉ ms.
Proof.
  simpl.
  destruct (run fuel (addLocation s0 "Depot").1 cs) as [[s2 ms']|] eqn:Hrun.
  - destruct (addLocation s0 "Depot") as [s1 m] eqn:Ha. cbn [fst] in Hrun.
    rewrite Hrun. intros [= _ <-].
    assert (m = (addLocation s0 "Depot").2) as -> by (by rewrite Ha).
    apply not_elem_of_cons. split.
    + unfold addLocation. by repeat case_match.
    + apply (run_depot_known fuel cs s1 s2); [|done].
      assert (s1 = (addLocation s0 "Depot").1) as -> by (by rewrite Ha).
      apply addLocation_known.
  - destruct (addLocation s0 "Depot") as [s1 m]. cbn [fst] in Hrun.
    by rewrite Hrun.
Qed.

Lemma depot_never_missing_witness :
  exists s ms,
    run 12 fresh (AddLocation "Depot" :: tail two_orders) = Some (s, ms) /\
    DepotMissing ∉ ms.
Proof.
  assert (is_Some (run 12 fresh (AddLocation "Depot" :: tail two_orders)))
    as [[s ms] Hrun] by (apply is_Some_true; vm_compute; reflexivity).
  exists s, ms. split; [exact Hrun|].
  exact (depot_never_missing 12 fresh (tail two_orders) s ms Hrun).
Defined.

(** ** The status report *)

Lemma run_next_id fuel cs : forall s s' ms,
  run fuel s cs = Some (s', ms) -> in_int (nextOrderId s) ->
  nextOrderId s' = wrap (nextOrderId s + Z.of_nat (length (placed_ids ms))).
Proof.
  induction cs as [|c cs IH]; intros s s' ms; simpl.
  { intros [= <- <-] Hin. cbn. rewrite Z.add_0_r. symmetry. by apply wrap_small. }
  destruct (exec fuel s c) as [[s1 m]|] eqn:He; [|done].
  destruct (run fuel s1 cs) as [[s2 ms']|] eqn:Hrun; [|done].
  intros [= <- <-] Hin.
  pose proof (exec_next_in_int _ _ _ _ _ He Hin) as Hin1.
  rewrite (IH _ _ _ Hrun Hin1), placed_ids_cons.
  apply exec_next_id in He.
  destruct (placed_id m) as [i|].
  - destruct He as [_ ->]. unfold int_add. rewrite wrap_add_l.
    change (length (option_list (Some i) ++ placed_ids ms'))
      with (S (length (placed_ids ms'))).
    f_equal. lia.
  - by rewrite He.
Qed.

Lemma Sorted_fst {V : Type} (l : list (string * V)) :
  Sorted key_le l -> Sorted (fun a b => String.leb a b = true) (map fst l).
Proof.
  induction 1 as [|x l _ IH Hhd]; cbn; constructor; [done|].
  destruct Hhd; cbn; constructor. done.
Qed.

Lemma key_le_total {V : Type} : Total (@key_le V).
Proof. intros a b. apply String.leb_total. Qed.

(** X21: what [systemStatus] reports after a session: the queue and
    stack sizes add up to the number of successful placements, the next
    id is 1001 plus that number as a 32-bit int, and the locations are
    listed in increasing order, each registered location once. *)
Theorem status_report fuel cs s ms pending completed next locations :
  run fuel fresh cs = Some (s, ms) ->
  systemStatus s = (s, Status pending completed next locations) ->
  (pending + completed)%nat = length (placed_ids ms) /\
  next = wrap (1001 + Z.of_nat (length (placed_ids ms))) /\
  Sorted (fun a b => String.leb a b = true) locations /\
  NoDup locations /\
  length locations = size (deliveryGraph s) /\
  forall x, x ∈ locations <-> is_Some (deliveryGraph s !! x).
Proof.
  intros Hrun [= <- <- <- <-].
  split; [|split; [|split; [|split; [|split]]]].
  - rewrite placed_ids_orders, length_fmap,
      <- (orders_conserved_perm _ _ _ _ Hrun), length_app. done.
  - rewrite (run_next_id _ _ _ _ _ Hrun); [done|].
    cbn. unfold in_int, INT_MIN, INT_MAX. lia.
  - apply Sorted_fst. unfold entries.
    apply (Sorted_merge_sort _ (Total0 := key_le_total)).
  - change (map fst ?l) with (fst <$> l).
    rewrite entries_perm. apply NoDup_fst_map_to_list.
  - by rewrite length_map, length_entries.
  - intros x. change (map fst ?l) with (fst <$> l).
    rewrite list_elem_of_fmap. split.
    + intros ([k v] & -> & Hin). apply elem_of_entries in Hin. by eexists.
    + intros [v Hv]. exists (x, v). split; [done|]. by apply elem_of_entries.
Qed.

Lemma status_report_witness :
  exists s ms,
    run 12 fresh two_deliveries = Some (s, ms) /\
    systemStatus s =
      (s, Status (length (incomingOrders s)) (length (completedOrders s))
            (nextOrderId s) (map fst (entries (deliveryGraph s)))) /\
    (length (incomingOrders s) + length (completedOrders s))%nat =
      length (placed_ids ms) /\
    nextOrderId s = wrap (1001 + Z.of_nat (length (placed_ids ms))).
Proof.
  assert (is_Some (run 12 fresh two_deliveries)) as [[s ms] Hrun]
    by (apply is_Some_true; vm_compute; reflexivity).
  assert (systemStatus s =
            (s, Status (length (incomingOrders s)) (length (completedOrders s))
                  (nextOrderId s) (map fst (entries (deliveryGraph s))))) as Hst
    by reflexivity.
  exists s, ms. split; [exact Hrun|]. split; [exact Hst|].
  pose proof (status_report 12 two_deliveries s ms _ _ _ _ Hrun Hst) as H.
  split; [exact (proj1 H)|exact (proj1 (proj2 H))].
Defined.

(** ** The latest delivery *)





(** ** The route report *)

Lemma findShortestPath_leg g W a b fuel :
  closed g -> no_overflow W g ->
  is_Some (g !! a) -> is_Some (g !! b) ->
  (enough_fuel g <= fuel)%nat ->
  exists path d,
    findShortestPath fuel g a b = Some (g, path) /\
    calculatePathDistance g path = (g, d) /\
    0 <= d < INT_MAX /\ leg_report g a b d path.
Proof.
  intros Hclosed Hno Ha Hb Hfuel.
  destruct (findShortestPath_spec g W a b fuel Hclosed Hno Ha Hb Hfuel)
    as (d & Hd & [[Hcase Hempty]|(Hne & Hfin & path & Hpath & Hfind & Hcalc & Hroute)]).
  - exists [], 0. split; [done|]. split; [done|].
    split; [unfold INT_MAX; lia|]. left. split; [done|]. split; [done|].
    destruct Hcase as [->|Hmax]; [by left|]. right. intros p t Hroute.
    destruct (search_distance_least g W a b fuel p t
                Hclosed Hno Hfuel Ha Hroute) as (d' & Hd' & _ & Hfin).
    congruence.
  - exists path, d. split; [done|]. split; [done|]. split; [done|].
    right. split; [done|]. split; [done|]. intros p t Hp.
    destruct (search_distance_least g W a b fuel p t
                Hclosed Hno Hfuel Ha Hp) as (d' & Hd' & Hle & _).
    congruence.
Qed.

(** X23: for an indexed order between registered locations, on a graph
    with non-negative weights whose sums stay inside [int] and with the
    depot registered, [optimizeDeliveryRoute] leaves the state as it is
    and reports, for the leg from the depot to the restaurant and for
    the leg from the restaurant to the destination, a route of least
    total weight with its weight (or no path and 0 when the leg is
    trivial or has no route), and as total the int sum of the two. *)
Theorem route_report_optimal fuel s orderId order W :
  closed (deliveryGraph s) -> no_overflow W (deliveryGraph s) ->
  (enough_fuel (deliveryGraph s) <= fuel)%nat ->
  allOrders s !! orderId = Some order ->
  is_Some (deliveryGraph s !! "Depot"%string) ->
  known_order (deliveryGraph s) order ->
  exists d1 p1 d2 p2,
    optimizeDeliveryRoute fuel s orderId =
      Some (s, RouteReport (Some d1) p1 (Some d2) p2 (Some (int_add d1 d2))) /\
    leg_report (deliveryGraph s) "Depot" (restaurant order) d1 p1 /\
    leg_report (deliveryGraph s) (restaurant order) (destination order) d2 p2.
Proof.
  intros Hclosed Hno Hfuel Ho Hdepot [Hr Hd].
  destruct (findShortestPath_leg (deliveryGraph s) W "Depot" (restaurant order)
              fuel Hclosed Hno Hdepot Hr Hfuel)
    as (p1 & d1 & Hf1 & Hc1 & Hd1 & Hleg1).
  destruct (findShortestPath_leg (deliveryGraph s) W (restaurant order)
              (destination order) fuel Hclosed Hno Hr Hd Hfuel)
    as (p2 & d2 & Hf2 & Hc2 & Hd2 & Hleg2).
  exists d1, p1, d2, p2. split; [|done].
  unfold optimizeDeliveryRoute.
  rewrite (proj2 (count_true _ _)) by (by exists order). cbn [negb].
  rewrite (index_present _ _ _ _ Ho).
  assert ({| incomingOrders := incomingOrders s;
             completedOrders := completedOrders s;
             deliveryGraph := deliveryGraph s; allOrders := allOrders s;
             nextOrderId := nextOrderId s |} = s) as -> by (by destruct s).
  rewrite (proj2 (count_true _ _)) by done. cbn [negb].
  rewrite Hf1, Hc1, Hf2, Hc2, set_graph_id.
  unfold shown_distance, shown_path, shown_total, total_distance.
  rewrite !(bool_decide_true (_ <> INT_MAX)) by lia.
  rewrite !(bool_decide_false (_ = INT_MAX)) by lia. cbn [orb].
  by rewrite bool_decide_true by (by apply int_add_not_minus_one).
Qed.

Lemma route_report_optimal_witness :
  let s := state_after one_order in
  let order := mkOrder 1001 "A" "B" (S754_zero false) in
  closed (deliveryGraph s) /\ no_overflow 5 (deliveryGraph s) /\
  (enough_fuel (deliveryGraph s) <= 12)%nat /\
  allOrders s !! 1001 = Some order /\
  is_Some (deliveryGraph s !! "Depot"%string) /\
  known_order (deliveryGraph s) order /\
  exists d1 p1 d2 p2,
    optimizeDeliveryRoute 12 s 1001 =
      Some (s, RouteReport (Some d1) p1 (Some d2) p2 (Some (int_add d1 d2))) /\
    leg_report (deliveryGraph s) "Depot" "A" d1 p1 /\
    leg_report (deliveryGraph s) "A" "B" d2 p2.
Proof.
  intros s order.
  assert (closed (deliveryGraph s)) as Hclosed by (unfold closed; compute_done).
  assert (no_overflow 5 (deliveryGraph s)) as Hno
    by (unfold no_overflow, weights_within; compute_done).
  assert (enough_fuel (deliveryGraph s) <= 12)%nat as Hfuel
    by (vm_compute; lia).
  assert (allOrders s !! 1001 = Some order) as Ho by (vm_compute; reflexivity).
  assert (is_Some (deliveryGraph s !! "Depot"%string)) as Hdepot
    by (apply count_true; vm_compute; reflexivity).
  assert (known_order (deliveryGraph s) order) as Hk
    by (split; apply count_true; vm_compute; reflexivity).
  split; [exact Hclosed|]. split; [exact Hno|]. split; [exact Hfuel|].
  split; [exact Ho|]. split; [exact Hdepot|]. split; [exact Hk|].
  exact (route_report_optimal 12 s 1001 order 5
           Hclosed Hno Hfuel Ho Hdepot Hk).
Defined.

(** ** Looking up an order *)

Lemma run_index_keys fuel cs : forall s s' ms k,
  run fuel s cs = Some (s', ms) ->
  is_Some (allOrders s' !! k) <->
  is_Some (allOrders s !! k) \/ k ∈ placed_ids ms.
Proof.
  induction cs as [|c cs IH]; intros s s' ms k; simpl.
  { intros [= <- <-]. cbn. rewrite elem_of_nil. tauto. }
  destruct (exec fuel s c) as [[s1 m]|] eqn:He; [|done].
  destruct (run fuel s1 cs) as [[s2 ms']|] eqn:Hrun; [|done].
  intros [= <- <-].
  rewrite (IH _ _ _ k Hrun), placed_ids_cons, placed_id_order, elem_of_app.
  apply exec_index in He.
  destruct (placed_order m) as [o|]; cbn.
  - destruct He as (-> & _). rewrite lookup_insert_is_Some, list_elem_of_singleton.
    destruct (decide (id o = k)); intuition congruence.
  - rewrite He, elem_of_nil. tauto.
Qed.

(** X24: after any session [optimizeDeliveryRoute] reports an order id
    as not found exactly when no order was placed under that id; being
    delivered or reverted does not take an order out of the index. *)
Theorem order_found_iff_placed fuel cs s ms fuel' orderId :
  run fuel fresh cs = Some (s, ms) ->
  optimizeDeliveryRoute fuel' s orderId = Some (s, OrderNotFound orderId) <->
  orderId ∉ placed_ids ms.
Proof.
  intros Hrun.
  pose proof (run_index_keys _ _ _ _ _ orderId Hrun) as Hkeys.
  cbn [allOrders fresh] in Hkeys. rewrite lookup_empty in Hkeys.
  unfold optimizeDeliveryRoute.
  destruct (count (allOrders s) orderId) eqn:Hc; cbn [negb].
  - apply count_true in Hc. split.
    + repeat case_match; intros Heq; simplify_eq.
    + intros Hn. destruct Hn. apply Hkeys in Hc as [[? [=]]|?]; done.
  - apply count_false in Hc. split; [|done].
    intros _ Hin. rewrite Hc in Hkeys.
    destruct (proj2 Hkeys (or_intror Hin)) as [? [=]].
Qed.

Lemma order_found_iff_placed_witness :
  exists s ms,
    run 12 fresh two_orders = Some (s, ms) /\
    (optimizeDeliveryRoute 12 s 1003 = Some (s, OrderNotFound 1003) <->
     1003 ∉ placed_ids ms).
Proof.
  assert (is_Some (run 12 fresh two_orders)) as [[s ms] Hrun]
    by (apply is_Some_true; vm_compute; reflexivity).
  exists s, ms. split; [exact Hrun|].
  exact (order_found_iff_placed 12 two_orders s ms 12 1003 Hrun).
Defined.
